(** * bittensor: supervised serving processes and the weight-synchronisation loop

    A shallow embedding of
    - [bittensor/_neuron/text/core_server/__init__.py]: the [Process] wrapper
      that hands a child's exception to its parent, the supervision loop of
      [neuron.run] and the identity fan-out [neuron.create_shared_subconfigs];
    - [neurons/gpt2-wiki.py]: the [train] loop with its moving-average row
      weights and the periodic emit / sync against the metagraph.

    Python objects that are shared and mutated (configs, process handles) live
    in explicit stores; calls into collaborators (metagraph, axon, the model)
    are answered by an environment and recorded in an event log. *)

From Stdlib Require Import ZArith QArith Qabs Lia String Ascii.
From stdpp Require Import gmap strings list.

Local Open Scope Z_scope.
Local Open Scope string_scope.
Local Open Scope list_scope.
Local Open Scope nat_scope.

(** ** Python exceptions and results *)

(** The exception values the embedded code raises or lets through: the
    subclasses of [Exception], which is what both [except Exception]
    handlers of the source catch.  What a target can raise besides them
    ([SystemExit], [KeyboardInterrupt]) is [Worker.base_exn]. *)
Inductive exn :=
| ValueError
| AttributeError
| TypeError
| KeyError
| ChildProcessError (msg : string)
| UserError (name : string).

Inductive result (A : Type) :=
| Ok (a : A)
| Raise (e : exn).
Arguments Ok {A} a.
Arguments Raise {A} e.

Definition bind {A B} (r : result A) (k : A -> result B) : result B :=
  match r with
  | Ok a => k a
  | Raise e => Raise e
  end.

(** ** Python strings *)

(** [s.split(sep)] for a one-character separator: never empty, and an empty
    piece stands between two adjacent separators and at either end. *)
Fixpoint split (sep : ascii) (s : string) : list string :=
  match s with
  | EmptyString => [EmptyString]
  | String c rest =>
    if Ascii.eqb c sep then EmptyString :: split sep rest
    else
      match split sep rest with
      | piece :: pieces => String c piece :: pieces
      | [] => [String c EmptyString]
      end
  end.

(** [sep in s] *)
Fixpoint contains (sep : ascii) (s : string) : bool :=
  match s with
  | EmptyString => false
  | String c rest => Ascii.eqb c sep || contains sep rest
  end.

(** A character is a code point below 256; Python strings that hold other
    code points are outside this description. *)

(** The characters [int()] takes for white space around the number: the
    ASCII ones from tab to carriage return and the space, which
    [PyLong_FromString] skips, and the two white-space code points above
    127 (NEL, 133, and the no-break space, 160), which a string that is not
    pure ASCII has replaced by spaces beforehand.  The separators from 28 to
    31 are white space for [str.isspace] but not for [int()]. *)
Definition int_space (c : ascii) : bool :=
  let n := nat_of_ascii c in
  (Nat.leb 9 n && Nat.leb n 13) || Nat.eqb n 32 || Nat.eqb n 133 || Nat.eqb n 160.

Fixpoint lstrip (s : string) : string :=
  match s with
  | String c rest => if int_space c then lstrip rest else s
  | EmptyString => EmptyString
  end.

Fixpoint rstrip (s : string) : string :=
  match s with
  | EmptyString => EmptyString
  | String c rest =>
    match rstrip rest with
    | EmptyString => if int_space c then EmptyString else String c EmptyString
    | rest' => String c rest'
    end
  end.

(** The ASCII digits; no code point from 128 to 255 is a decimal digit. *)
Definition digit_of (c : ascii) : option Z :=
  let n := nat_of_ascii c in
  if Nat.leb 48 n && Nat.leb n 57 then Some (Z.of_nat (n - 48)) else None.

(** Decimal digits, single underscores allowed between two digits. *)
Fixpoint digits (after_digit : bool) (acc : Z) (s : string) : option Z :=
  match s with
  | EmptyString => if after_digit then Some acc else None
  | String c rest =>
    match digit_of c with
    | Some d => digits true (10 * acc + d)%Z rest
    | None =>
      if Ascii.eqb c "_" && after_digit then digits false acc rest else None
    end
  end.

Fixpoint count_digits (s : string) : nat :=
  match s with
  | EmptyString => 0
  | String c rest =>
    match digit_of c with
    | Some _ => S (count_digits rest)
    | None => count_digits rest
    end
  end.

(** [sys.int_info.default_max_str_digits]: a decimal text of more digits is
    refused. *)
Definition max_str_digits : nat := 4300.

(** [int(s)] for a string [s]: white space on either side, an optional
    sign, then decimal digits with single underscores between them, at most
    [max_str_digits] digits.  [None] stands for the [ValueError] of the
    built-in. *)
Definition py_int (s : string) : option Z :=
  let body := rstrip (lstrip s) in
  let '(negative, text) :=
    match body with
    | String "-" rest => (true, rest)
    | String "+" rest => (false, rest)
    | _ => (false, body)
    end in
  match digits false 0%Z text with
  | Some v =>
    if Nat.ltb max_str_digits (count_digits text) then None
    else Some (if negative then (- v)%Z else v)
  | None => None
  end.

(** ** The object store *)

(** Configurations are mutable objects that several names can refer to, so
    they live in a store and are referred to by address. *)
Definition loc := positive.

(** ** core_server: the [Process] wrapper *)

Module Worker.

(** [BaseException]s that are no [Exception]s; [except Exception] does not
    catch them.  [SystemExit] carries the status the bootstrap of the child
    makes of its code (the code itself, 0 for [None], 1 for an object that
    is no integer). *)
Inductive base_exn :=
| SystemExit (status : Z)
| KeyboardInterrupt
| OtherBase (name : string).

(** What can leave a call. *)
Inductive raised :=
| Exc (e : exn)
| Base (b : base_exn).

(** One object handed to [send]: [None], or the pair [(e, tb)]. *)
Definition msg := option (exn * string).

(** What the pipe makes of the pair [(e, tb)] of a child: it is pickled,
    written and can be rebuilt by the parent; or it is written but [recv()]
    in the parent raises [err] while rebuilding the exception; or pickling
    it raises [err] in the child and nothing is written; or it is larger
    than the buffer of the pipe and [send] waits for a reader. *)
Inductive delivery :=
| Delivered
| Garbled (err : exn)
| Refused (err : exn)
| Oversized.

(** What the target of a process ([serve]) does when it ends: it returns;
    or it raises an [Exception] [e] whose formatted traceback is [tb], and
    [d] says how the pair travels; or a [BaseException] that is no
    [Exception] leaves it. *)
Inductive body_result :=
| BodyReturns
| BodyRaises (e : exn) (tb : string) (d : delivery)
| BodyLeaves (b : base_exn).

(** One object in the pipe, as [recv()] will find it. *)
Inductive item :=
| Readable (m : msg)
| Unreadable (err : exn).

(** How a call made in the child ends: it returns, an exception leaves it,
    or it never returns. *)
Inductive completion :=
| RunReturns
| RunRaises (r : raised)
| RunBlocks.

(** [_child_conn.send(obj)] *)
Definition send (obj : msg) (d : delivery) (child_conn : list item)
  : list item * completion :=
  match d with
  | Delivered => (child_conn ++ [Readable obj], RunReturns)
  | Garbled err => (child_conn ++ [Unreadable err], RunReturns)
  | Refused err => (child_conn, RunRaises (Exc err))
  | Oversized => (child_conn, RunBlocks)
  end.

(** [Process.run]: run the target inside [try]; send [None] after a normal
    return ([None] always travels); under [except Exception], send
    [(e, tb)], and do not re-raise (the [raise e] is commented out): the
    handler ends as its [send] ends.  The result is the child end of the
    pipe after the call and how the call ended. *)
Definition run (body : body_result) (child_conn : list item)
  : list item * completion :=
  match body with
  | BodyReturns => send None Delivered child_conn
  | BodyRaises e tb d => send (Some (e, tb)) d child_conn
  | BodyLeaves b => (child_conn, RunRaises (Base b))
  end.

(** The exit status [multiprocessing] gives a child: 0 when [run] returned,
    the status of a [SystemExit], 1 for any other exception that left
    [run]; none as long as [run] has not ended.  The parent sees a status
    modulo 256. *)
Definition bootstrap_exitcode (c : completion) : option Z :=
  match c with
  | RunReturns => Some 0%Z
  | RunRaises (Base (SystemExit status)) => Some (status mod 256)%Z
  | RunRaises _ => Some 1%Z
  | RunBlocks => None
  end.

(** A child process from start to the end of [run]: what it has sent and
    its status, if it has exited. *)
Definition child_main (body : body_result) : list item * option Z :=
  let '(sent, c) := run body [] in
  (sent, bootstrap_exitcode c).

(** A started process is running or has exited with a status. *)
Inductive status :=
| Running
| Exited (code : Z).

(** What the parent can see of one started child at one instant. *)
Record snapshot := Snapshot {
  status_of : status;
  sent : list item;
}.

(** [p.is_alive()] and [p.exitcode] of a started process. *)
Definition is_alive (snap : snapshot) : bool :=
  match status_of snap with
  | Running => true
  | Exited _ => false
  end.

Definition exitcode (snap : snapshot) : option Z :=
  match status_of snap with
  | Running => None
  | Exited code => Some code
  end.

(** The parent's side of a [Process] object: how many objects it has taken
    out of the pipe, and the cached [_exception]. *)
Record handle := Handle {
  received : nat;
  _exception : msg;
}.

Definition new_handle : handle := Handle 0 None.

(** The [exception] property: when the pipe holds an unread object
    ([poll()]), receive it into [_exception]; return [_exception].  An
    object that cannot be rebuilt is taken out of the pipe all the same,
    and the exception of [recv()] leaves the property. *)
Definition exception (snap : snapshot) (p : handle) : handle * result msg :=
  match drop (received p) (sent snap) with
  | Readable m :: _ => (Handle (S (received p)) m, Ok m)
  | Unreadable err :: _ => (Handle (S (received p)) (_exception p), Raise err)
  | [] => (p, Ok (_exception p))
  end.

End Worker.

(** ** core_server: the supervision loop of [neuron.run] *)

Module Supervisor.
Import Worker.

(** The children as the parent sees them over time: instant, then child.
    Every process on the dict was started before the loop (line 174), which
    is why a snapshot knows no process that was never started. *)
Definition world := nat -> nat -> snapshot.

(** The state of the parent: the clock ([sleep(1)] advances it by one), the
    dict [processes] in insertion order, and the [start], [terminate],
    [join] and [is_alive] calls made so far, oldest first; an [is_alive]
    call is recorded with the instant it was made at. *)
Record sup := Sup {
  clock : nat;
  processes : list (nat * (handle * loc));
  started : list nat;
  terminated : list nat;
  joined : list nat;
  polled : list (nat * nat);
}.

Fixpoint dict_get {V} (d : list (nat * V)) (n : nat) : option V :=
  match d with
  | [] => None
  | (k, v) :: d' => if Nat.eqb k n then Some v else dict_get d' n
  end.

Fixpoint dict_set {V} (d : list (nat * V)) (n : nat) (v : V) : list (nat * V) :=
  match d with
  | [] => [(n, v)]
  | (k, u) :: d' => if Nat.eqb k n then (k, v) :: d' else (k, u) :: dict_set d' n v
  end.

Fixpoint dict_del {V} (d : list (nat * V)) (n : nat) : list (nat * V) :=
  match d with
  | [] => []
  | (k, u) :: d' => if Nat.eqb k n then d' else (k, u) :: dict_del d' n
  end.

Definition keys {V} (d : list (nat * V)) : list nat := map fst d.

(** [sleep(1)] *)
Definition sleep (s : sup) : sup :=
  Sup (S (clock s)) (processes s) (started s) (terminated s) (joined s) (polled s).

(** The [p.is_alive()] call on the process under key [n]. *)
Definition observe (n : nat) (s : sup) : sup :=
  Sup (clock s) (processes s) (started s) (terminated s) (joined s)
      (polled s ++ [(clock s, n)]).

Definition with_processes (s : sup) (d : list (nat * (handle * loc))) : sup :=
  Sup (clock s) d (started s) (terminated s) (joined s) (polled s).

(** [for p_, task in processes.values(): p_.terminate()] *)
Definition terminate_all (s : sup) : sup :=
  Sup (clock s) (processes s) (started s)
      (terminated s ++ keys (processes s)) (joined s) (polled s).

(** [p.join()] for the process under key [n]. *)
Definition join (n : nat) (s : sup) : sup :=
  Sup (clock s) (processes s) (started s) (terminated s) (joined s ++ [n])
      (polled s).

(** The body of [for n in list(processes)]: one sleep, then the three
    branches under [if not p.is_alive()].  The left result is the state the
    loop goes on with, the right one an exception leaving the loop.  The
    property [p.exception] is read once by the [elif] and once more by the
    unpacking assignment; both reads act on the same [Process] object, and
    an exception of either read leaves the loop as it is.  The first branch
    is written as in the source; a process that was started and is not
    alive has an exit status, so no world takes it. *)
Definition poll (w : world) (n : nat) (s : sup) : sup + (exn * sup) :=
  match dict_get (processes s) n with
  | None => inr (KeyError, s)
  | Some (p, shared_subconfig) =>
    let s := observe n (sleep s) in
    let snap := w (clock s) n in
    if is_alive snap then inl s
    else
      match exitcode snap with
      | None =>
        inr (ChildProcessError "Not started and not exited!", terminate_all s)
      | Some code =>
        let '(p1, r1) := exception snap p in
        let s1 := with_processes s (dict_set (processes s) n (p1, shared_subconfig)) in
        match r1 with
        | Raise err => inr (err, s1)
        | Ok (Some _) =>
          let '(p2, r2) := exception snap p1 in
          let s2 := with_processes s1 (dict_set (processes s1) n (p2, shared_subconfig)) in
          match r2 with
          | Raise err => inr (err, s2)
          | Ok (Some (error, trace)) => inr (ChildProcessError trace, terminate_all s2)
          | Ok None => inr (TypeError, s2)
          end
        | Ok None =>
          if Z.eqb code 0 then
            inl (with_processes (join n s1) (dict_del (processes s1) n))
          else inl s1
        end
      end
  end.

Fixpoint for_loop (w : world) (ns : list nat) (s : sup) : sup + (exn * sup) :=
  match ns with
  | [] => inl s
  | n :: ns' =>
    match poll w n s with
    | inl s' => for_loop w ns' s'
    | inr r => inr r
    end
  end.

(** How the supervision loop can stand after a bounded number of rounds. *)
Inductive outcome :=
| Returned (s : sup)
| Raised (e : exn) (s : sup)
| Polling (s : sup).

(** [while len(processes) > 0: for n in list(processes): ...]; [rounds]
    bounds the number of iterations of the [while]. *)
Fixpoint while_loop (rounds : nat) (w : world) (s : sup) : outcome :=
  match processes s with
  | [] => Returned s
  | _ :: _ =>
    match rounds with
    | O => Polling s
    | S rounds' =>
      match for_loop w (keys (processes s)) s with
      | inl s' => while_loop rounds' w s'
      | inr (e, s') => Raised e s'
      end
    end
  end.

(** The start-up loop: one [Process] per sub-configuration, started and
    stored under the keys [n], [n + 1], ... *)
Fixpoint spawn (n : nat) (shared_subconfigs : list loc) (s : sup) : sup :=
  match shared_subconfigs with
  | [] => s
  | c :: cs =>
    spawn (S n) cs
      (Sup (clock s) (dict_set (processes s) n (new_handle, c))
           (started s ++ [n]) (terminated s) (joined s) (polled s))
  end.

(** The state of the parent before the start-up loop. *)
Definition idle : sup := Sup 0 [] [] [] [] [].

(** The multi-process branch of [neuron.run], taken when there is not exactly
    one sub-configuration. *)
Definition supervise (rounds : nat) (w : world) (shared_subconfigs : list loc)
  : outcome :=
  while_loop rounds w (spawn 0 shared_subconfigs idle).

(** *** Worlds made of children with a fate *)

(** The life of one child: it serves for ever; or its target ends at instant
    [t] and [Process.run] takes over; or the process ends at instant [t]
    with status [code] without [Process.run] having sent anything (a signal
    [k] gives the status [-k]). *)
Inductive fate :=
| Serving
| Finishes (t : nat) (body : body_result)
| Dies (t : nat) (code : Z).

(** A child whose [run] waits in [send] has not exited, and the parent does
    not read its pipe as long as it is alive. *)
Definition snapshot_of (f : fate) (now : nat) : snapshot :=
  match f with
  | Serving => Snapshot Running []
  | Finishes t body =>
    if Nat.ltb now t then Snapshot Running []
    else
      match child_main body with
      | (sent, Some code) => Snapshot (Exited code) sent
      | (sent, None) => Snapshot Running sent
      end
  | Dies t code =>
    if Nat.ltb now t then Snapshot Running []
    else Snapshot (Exited code) []
  end.

(** A child without a fate serves for ever. *)
Definition world_of (fates : list fate) : world :=
  fun now n =>
    match fates !! n with
    | Some f => snapshot_of f now
    | None => Snapshot Running []
    end.

(** The target raises an [Exception]. *)
Definition faults (f : fate) : bool :=
  match f with
  | Finishes _ (BodyRaises _ _ _) => true
  | _ => false
  end.


(** At instant [now] the parent can read the pair of the child: its target
    has raised and the pair has travelled. *)
Definition shows_fault (f : fate) (now : nat) : bool :=
  match f with
  | Finishes t (BodyRaises _ _ Delivered) => Nat.leb t now
  | _ => false
  end.

(** The child ends with status 0 and an empty fault slot. *)
Definition clean_exit (f : fate) : bool :=
  match f with
  | Finishes _ BodyReturns => true
  | Finishes _ (BodyLeaves (SystemExit status)) => Z.eqb (status mod 256) 0
  | Dies _ code => Z.eqb code 0
  | _ => false
  end.

End Supervisor.

(** ** core_server: identity fan-out *)

Module Fanout.

(** The leaves of a configuration. *)
Inductive scalar :=
| SNone
| SStr (s : string)
| SInt (z : Z)
| SBool (b : bool).

(** A configuration object maps section names ([wallet], [axon], [neuron],
    ...) to section objects; a section object maps attribute names to
    leaves.  Both are mutable, hence stored. *)
Inductive obj :=
| Namespace (attrs : gmap string scalar)
| Config (sections : list (string * loc)).

Abbreviation heap := (gmap loc obj).

Definition alloc (h : heap) (o : obj) : heap * loc :=
  let l := fresh (dom h) in (<[l := o]> h, l).

Fixpoint assoc {K V} (eqb : K -> K -> bool) (d : list (K * V)) (k : K) : option V :=
  match d with
  | [] => None
  | (k', v) :: d' => if eqb k' k then Some v else assoc eqb d' k
  end.

(** [config.<section>] *)
Definition get_section (h : heap) (c : loc) (name : string) : result loc :=
  match h !! c with
  | Some (Config secs) =>
    match assoc String.eqb secs name with
    | Some l => Ok l
    | None => Raise AttributeError
    end
  | _ => Raise AttributeError
  end.

(** [section.<attribute>] *)
Definition get_attr (h : heap) (l : loc) (name : string) : result scalar :=
  match h !! l with
  | Some (Namespace attrs) =>
    match attrs !! name with
    | Some v => Ok v
    | None => Raise AttributeError
    end
  | _ => Raise AttributeError
  end.

(** [section.<attribute> = v] *)
Definition set_attr (h : heap) (l : loc) (name : string) (v : scalar) : result heap :=
  match h !! l with
  | Some (Namespace attrs) => Ok (<[l := Namespace (<[name := v]> attrs)]> h)
  | _ => Raise AttributeError
  end.

(** [config.<section>.<attribute>] and its assignment. *)
Definition read (h : heap) (c : loc) (section name : string) : result scalar :=
  bind (get_section h c section) (fun l => get_attr h l name).

Definition write (h : heap) (c : loc) (section name : string) (v : scalar)
  : result heap :=
  bind (get_section h c section) (fun l => set_attr h l name v).

(** The sections of [copy.deepcopy(config)]: every section object is copied
    to a fresh address, once ([memo] maps an original to its copy, as the
    memo dictionary of [deepcopy] does).  Leaves are immutable and shared.
    A section that is not a stored section object is outside the shape this
    store describes and is reported as a [TypeError]. *)
Fixpoint deepcopy_sections (h : heap) (memo : list (loc * loc))
    (secs : list (string * loc))
  : result (heap * list (loc * loc) * list (string * loc)) :=
  match secs with
  | [] => Ok (h, memo, [])
  | (name, l) :: secs' =>
    match assoc Pos.eqb memo l with
    | Some l' =>
      bind (deepcopy_sections h memo secs') (fun '(h', memo', copied) =>
        Ok (h', memo', (name, l') :: copied))
    | None =>
      match h !! l with
      | Some (Namespace attrs) =>
        let '(h1, l') := alloc h (Namespace attrs) in
        bind (deepcopy_sections h1 ((l, l') :: memo) secs') (fun '(h', memo', copied) =>
          Ok (h', memo', (name, l') :: copied))
      | _ => Raise TypeError
      end
    end
  end.

(** [copy.deepcopy(config)] *)
Definition deepcopy (h : heap) (c : loc) : result (heap * loc) :=
  match h !! c with
  | Some (Config secs) =>
    bind (deepcopy_sections h [] secs) (fun '(h', _, copied) =>
      Ok (alloc h' (Config copied)))
  | _ => Raise TypeError
  end.

(** The body of [for key, port in zip(keylist, portlist)] after the
    unpacking of the key: the copy and its three assignments. *)
Definition subconfig_for (h : heap) (config : loc) (coldkey hotkey : string)
    (port : Z) : result (heap * loc) :=
  bind (deepcopy h config) (fun '(h1, subconfig) =>
  bind (write h1 subconfig "wallet" "name" (SStr coldkey)) (fun h2 =>
  bind (write h2 subconfig "wallet" "hotkey" (SStr hotkey)) (fun h3 =>
  bind (write h3 subconfig "axon" "port" (SInt port)) (fun h4 =>
  Ok (h4, subconfig))))).

(** [for key, port in zip(keylist, portlist)].  [zip] takes the next key,
    then the next port, which is where the lazy [map(int, ...)] converts
    it; it stops at the shorter of the two. *)
Fixpoint fanout_loop (h : heap) (config : loc) (keylist portlist : list string)
    (shared_subconfigs : list loc) : result (heap * list loc) :=
  match keylist, portlist with
  | key :: keylist', port_text :: portlist' =>
    match py_int port_text with
    | None => Raise ValueError
    | Some port =>
      match split ":" key with
      | [coldkey; hotkey] =>
        match subconfig_for h config coldkey hotkey port with
        | Ok (h4, subconfig) =>
          fanout_loop h4 config keylist' portlist' (shared_subconfigs ++ [subconfig])
        | Raise e => Raise e
        end
      | _ => Raise ValueError
      end
    end
  | _, _ => Ok (h, shared_subconfigs)
  end.

(** [neuron.create_shared_subconfigs] *)
Definition create_shared_subconfigs (h : heap) (config : loc)
  : result (heap * list loc) :=
  bind (read h config "wallet" "shared_keys") (fun shared_keys =>
  match shared_keys with
  | SNone => Ok (h, [config])
  | SStr keys_text =>
    let keylist := split "," keys_text in
    bind (read h config "axon" "shared_ports") (fun shared_ports =>
    match shared_ports with
    | SStr ports_text => fanout_loop h config keylist (split "," ports_text) []
    | _ => Raise AttributeError
    end)
  | _ => Raise AttributeError
  end).

(** What a configuration looks like from its address: its sections, each
    with the object it refers to. *)
Definition view (h : heap) (c : loc) : option (list (string * option obj)) :=
  match h !! c with
  | Some (Config secs) => Some (map (fun '(name, l) => (name, h !! l)) secs)
  | _ => None
  end.

(** The addresses a configuration is made of. *)
Definition footprint (h : heap) (c : loc) : list loc :=
  match h !! c with
  | Some (Config secs) => c :: map snd secs
  | _ => [c]
  end.

(** The shape the configuration parser builds: a configuration whose
    sections are stored section objects. *)
Definition well_formed (h : heap) (c : loc) : Prop :=
  exists secs, h !! c = Some (Config secs) /\
    Forall (fun sec => exists attrs, h !! sec.2 = Some (Namespace attrs)) secs.

(** Overwriting any object [c1] is made of leaves the look of [c2] as it
    is. *)
Definition independent (h : heap) (c1 c2 : loc) : Prop :=
  forall l o, l ∈ footprint h c1 -> view (<[l := o]> h) c2 = view h c2.

(** A key entry of the form [cold:hot]. *)
Definition key_entry (key coldkey hotkey : string) : Prop :=
  split ":" key = [coldkey; hotkey].

(** The configuration [sub] carries the identity that the pair of a key
    entry and a port entry stands for. *)
Definition carries (h : heap) (sub : loc) (entry : string * string) : Prop :=
  exists coldkey hotkey port,
    key_entry entry.1 coldkey hotkey /\
    py_int entry.2 = Some port /\
    read h sub "wallet" "name" = Ok (SStr coldkey) /\
    read h sub "wallet" "hotkey" = Ok (SStr hotkey) /\
    read h sub "axon" "port" = Ok (SInt port).

End Fanout.

(** ** core_server: [neuron(config).run()] *)

Module Neuron.
Import Worker Supervisor Fanout.

(** The fields of [neuron] the run depends on. *)
Record neuron := {
  config : loc;
  shared_subconfigs : list loc;
}.

(** [neuron.__init__], as far as the sub-configurations are concerned. *)
Definition init (h : heap) (c : loc) : result (heap * neuron) :=
  bind (create_shared_subconfigs h c) (fun '(h', subs) =>
    Ok (h', {| config := c; shared_subconfigs := subs |})).

(** How [neuron.run] can end. *)
Inductive run_outcome :=
| ServedInProcess
| Supervised (o : outcome).

Definition run (rounds : nat) (w : world) (self : neuron) : run_outcome :=
  if Nat.eqb (length (shared_subconfigs self)) 1 then ServedInProcess
  else Supervised (supervise rounds w (shared_subconfigs self)).

(** The processes a run has started, in order. *)
Definition started_by (o : run_outcome) : list nat :=
  match o with
  | ServedInProcess => []
  | Supervised (Returned s) | Supervised (Raised _ s) | Supervised (Polling s) =>
    started s
  end.

(** [neuron(config).run()]: the processes started, and how it ended. *)
Definition launch (rounds : nat) (w : world) (h : heap) (c : loc)
  : list nat * result run_outcome :=
  match init h c with
  | Raise e => ([], Raise e)
  | Ok (_, self) => let o := run rounds w self in (started_by o, Ok o)
  end.

End Neuron.

(** ** gpt2-wiki: the training loop *)

Module Gpt2Wiki.

Local Open Scope Q_scope.

(** Tensors of floats are lists of rationals: the arithmetic below is exact,
    rounding is not represented.  A tensor of two dimensions is rectangular:
    the rows of a [matrix] that stands for one have one length. *)
Definition vector := list Q.
Definition matrix := list (list Q).

Definition rectangular (width : nat) (m : matrix) : Prop :=
  Forall (fun row => length row = width) m.

Definition RuntimeError : exn := UserError "RuntimeError".
Definition IndexError : exn := UserError "IndexError".
Definition ZeroDivisionError : exn := UserError "ZeroDivisionError".

Fixpoint vadd (u v : vector) : vector :=
  match u, v with
  | x :: u', y :: v' => (x + y) :: vadd u' v'
  | _, _ => []
  end.

Definition vscale (c : Q) (v : vector) : vector := map (Qmult c) v.

Definition vsum (v : vector) : Q := fold_right Qplus 0 v.

(** [torch.mean(weights, axis = 0)]: the mean of the rows.  A batch has at
    least one row ([check_config] asserts [batch_size_train > 0]). *)
Definition mean_axis0 (weights : matrix) : vector :=
  match weights with
  | [] => []
  | row :: rows =>
    vscale (1 / inject_Z (Z.of_nat (length weights))) (fold_left vadd rows row)
  end.

(** [u + v] on tensors of one dimension: entry by entry when the sizes
    agree; a tensor of size one is broadcast over the other; any other pair
    of sizes raises. *)
Definition tensor_add (u v : vector) : result vector :=
  if Nat.eqb (length u) (length v) then Ok (vadd u v)
  else
    match u, v with
    | [x], _ => Ok (map (Qplus x) v)
    | _, [y] => Ok (map (fun x => x + y) u)
    | _, _ => Raise RuntimeError
    end.

(** [(1 - 0.03) * row_weights + 0.03 * batch_weights] *)
Definition moving_average (row_weights batch_weights : vector) : result vector :=
  tensor_add (vscale (1 - (3 # 100)) row_weights) (vscale (3 # 100) batch_weights).

(** The [eps] of [F.normalize], 1e-12. *)
Definition eps : Q := 1 # 1000000000000.

Definition norm1 (v : vector) : Q := vsum (map Qabs v).

(** [x.clamp_min(lo)] *)
Definition clamp_min (x lo : Q) : Q := if Qle_bool lo x then x else lo.

(** [F.normalize(v, p = 1, dim = 0)]: [v / norm1(v).clamp_min(eps)]. *)
Definition normalize (v : vector) : vector :=
  let denom := clamp_min (norm1 v) eps in
  map (fun x => x / denom) v.

(** Lines 126-128: the row after one batch. *)
Definition update_row (row_weights : vector) (weights : matrix) : result vector :=
  bind (moving_average row_weights (mean_axis0 weights)) (fun averaged =>
  Ok (normalize averaged)).

(** [session.metagraph]: the weight matrix and the neurons it ranges over. *)
Record metagraph := Metagraph {
  W : matrix;
  neurons : list nat;
}.

(** [W[0, :]] and [W[:, 0]]; out of range is an [IndexError]. *)
Definition row0 (m : matrix) : result vector :=
  match m with
  | r :: _ => Ok r
  | [] => Raise IndexError
  end.

Fixpoint col0 (m : matrix) : result vector :=
  match m with
  | [] => Ok []
  | [] :: _ => Raise IndexError
  | (x :: _) :: m' => bind (col0 m') (fun c => Ok (x :: c))
  end.

(** What the model returns for a batch, as far as the loop reads it. *)
Record output := Output {
  weights : matrix;
  local_target_loss : Q;
}.

(** The answers of the collaborators; an [exn] is an [Exception] the call
    raises.  [forward], [backward], [emit], [set_priority] and
    [empty_cache] are indexed by the iteration of the [while] loop they are
    called in, [sync] by the number of earlier [metagraph.sync()] calls,
    [model_train] and [data_parallel] by the number of iterations made
    before the call of [train] they belong to.  [forward] stands for lines
    94-96 ([nextbatch] and the model call), [backward] for lines 103-123
    (gradient step and logging), [empty_cache] for line 143
    ([torch.cuda.empty_cache()]), [model_train] for line 83
    ([model.train()]) and [data_parallel] for line 90
    ([torch.nn.DataParallel(model)]). *)
Record env := Env {
  forward : nat -> exn + output;
  backward : nat -> option exn;
  emit : nat -> option exn;
  sync : nat -> exn + metagraph;
  set_priority : nat -> option exn;
  empty_cache : nat -> option exn;
  model_train : nat -> option exn;
  data_parallel : nat -> option exn;
}.

(** The calls the loop makes that the claims speak of, and the errors its
    handler logs. *)
Inductive event :=
| Scalars (global_step : nat)
| Emit (row_weights : vector) (wait_for_inclusion : bool)
| Sync
| SetPriority (peers : list nat) (col_weights : vector)
| LoggedError (e : exn).

(** The session as the loop changes it. *)
Record state := State {
  graph : metagraph;
  iterations : nat;
  syncs : nat;
  log : list event;
}.

(** The local variables of [train] that outlive an iteration. *)
Record locals := Locals {
  row_weights : vector;
  local_step : nat;
  global_step : nat;
  last_output : option output;
}.

Definition emit_event (ev : event) (st : state) : state :=
  State (graph st) (iterations st) (syncs st) (log st ++ [ev]).

(** [session.metagraph.sync()] *)
Definition metagraph_sync (e : env) (st : state) : state * option exn :=
  let st1 := State (graph st) (iterations st) (S (syncs st)) (log st ++ [Sync]) in
  match sync e (syncs st) with
  | inl err => (st1, Some err)
  | inr g => (State g (iterations st1) (syncs st1) (log st1), None)
  end.

(** Lines 130-139, entered when [(global_step + 1) % sync_interval == 0]. *)
Definition publish_pull (e : env) (st : state) (l : locals)
  : state * locals * option exn :=
  let st1 := emit_event (Emit (row_weights l) true) st in
  match emit e (iterations st) with
  | Some err => (st1, l, Some err)
  | None =>
    match metagraph_sync e st1 with
    | (st2, Some err) => (st2, l, Some err)
    | (st2, None) =>
      match row0 (W (graph st2)) with
      | Raise err => (st2, l, Some err)
      | Ok row =>
        let l1 := Locals row (local_step l) (global_step l) (last_output l) in
        match col0 (W (graph st2)) with
        | Raise err => (st2, l1, Some err)
        | Ok col_weights =>
          let st3 := emit_event (SetPriority (neurons (graph st2)) col_weights) st2 in
          (st3, l1, set_priority e (iterations st))
        end
      end
    end
  end.

(** The body of the [try] (lines 94-143): the state and the locals it leaves
    behind, and the exception it raises, if any.  The last call of the body,
    line 143, comes after the two counters have been incremented. *)
Definition try_body (e : env) (sync_interval : Z) (st : state) (l : locals)
  : state * locals * option exn :=
  match forward e (iterations st) with
  | inl err => (st, l, Some err)
  | inr out =>
    let l1 := Locals (row_weights l) (local_step l) (global_step l) (Some out) in
    match backward e (iterations st) with
    | Some err => (st, l1, Some err)
    | None =>
      let st1 := emit_event (Scalars (global_step l)) st in
      match update_row (row_weights l) (weights out) with
      | Raise err => (st1, l1, Some err)
      | Ok row =>
        let l2 := Locals row (local_step l) (global_step l) (Some out) in
        let '(st2, l3, raised) :=
          if Z.eqb sync_interval 0 then (st1, l2, Some ZeroDivisionError)
          else if Z.eqb (Z.of_nat (global_step l + 1) mod sync_interval) 0
               then publish_pull e st1 l2
               else (st1, l2, None) in
        match raised with
        | Some err => (st2, l3, Some err)
        | None =>
          (st2,
           Locals (row_weights l3) (S (local_step l3)) (S (global_step l3))
                  (last_output l3),
           empty_cache e (iterations st))
        end
      end
    end
  end.

(** One iteration of [while local_step < local_epochs]: the [try] and its
    [except Exception] handler, which logs and goes on. *)
Definition iteration (e : env) (sync_interval : Z) (st : state) (l : locals)
  : state * locals :=
  let '(st1, l1, raised) := try_body e sync_interval st l in
  let st2 := match raised with
             | Some err => emit_event (LoggedError err) st1
             | None => st1
             end in
  (State (graph st2) (S (iterations st2)) (syncs st2) (log st2), l1).

Definition local_epochs : nat := 10.

(** How a call of [train] can stand after a bounded number of iterations. *)
Inductive train_outcome :=
| TrainReturned (out : option output) (global_step : nat) (st : state)
| TrainRaised (err : exn) (st : state)
| Training (l : locals) (st : state).

Fixpoint train_loop (fuel : nat) (e : env) (sync_interval : Z)
    (st : state) (l : locals) : train_outcome :=
  if Nat.ltb (local_step l) local_epochs then
    match fuel with
    | O => Training l st
    | S fuel' =>
      let '(st', l') := iteration e sync_interval st l in
      train_loop fuel' e sync_interval st' l'
    end
  else TrainReturned (last_output l) (global_step l) st.

(** [train(epoch, global_step)]: [model.train()], the sync, the row read
    and [DataParallel] come before the loop and stand outside the [try]. *)
Definition train (fuel : nat) (e : env) (sync_interval : Z)
    (global_step : nat) (st : state) : train_outcome :=
  match model_train e (iterations st) with
  | Some err => TrainRaised err st
  | None =>
    match metagraph_sync e st with
    | (st1, Some err) => TrainRaised err st1
    | (st1, None) =>
      match row0 (W (graph st1)) with
      | Raise err => TrainRaised err st1
      | Ok row =>
        match data_parallel e (iterations st1) with
        | Some err => TrainRaised err st1
        | None =>
          train_loop fuel e sync_interval st1 (Locals row 0 global_step None)
        end
      end
    end
  end.

(** The first [epochs] rounds of [while True] in [main]; every call of
    [train] gets [fuel] iterations. *)
Fixpoint main_loop (epochs fuel : nat) (e : env) (sync_interval : Z)
    (global_step : nat) (st : state) : train_outcome :=
  match epochs with
  | O => TrainReturned None global_step st
  | S epochs' =>
    match train fuel e sync_interval global_step st with
    | TrainReturned out global_step' st' =>
      match epochs' with
      | O => TrainReturned out global_step' st'
      | S _ => main_loop epochs' fuel e sync_interval global_step' st'
      end
    | stopped => stopped
    end
  end.

(** The steps at which the log shows an [Emit]: the number of the step, from
    one, that the preceding [Scalars] call belongs to. *)
Fixpoint emit_steps (current : nat) (events : list event) : list nat :=
  match events with
  | [] => []
  | Scalars g :: events' => emit_steps (S g) events'
  | Emit _ _ :: events' => current :: emit_steps current events'
  | _ :: events' => emit_steps current events'
  end.

(** An environment in which no call fails: every batch goes through with
    weights over [width] peers, every emit and priority update is accepted,
    and every sync pulls a matrix with a first row over [width] peers and a
    first column. *)
Definition cooperative (width : nat) (e : env) : Prop :=
  (forall k, exists out,
     forward e k = inr out /\ weights out <> [] /\ rectangular width (weights out)) /\
  (forall k, backward e k = None) /\
  (forall k, emit e k = None) /\
  (forall k, exists g row col,
     sync e k = inr g /\ row0 (W g) = Ok row /\ length row = width /\
     col0 (W g) = Ok col) /\
  (forall k, set_priority e k = None) /\
  (forall k, empty_cache e k = None) /\
  (forall k, model_train e k = None) /\
  (forall k, data_parallel e k = None).

(** Events without their payload. *)
Inductive kind :=
| KScalars (global_step : nat)
| KEmit
| KSync
| KSetPriority
| KLoggedError.

Definition kind_of (ev : event) : kind :=
  match ev with
  | Scalars g => KScalars g
  | Emit _ _ => KEmit
  | Sync => KSync
  | SetPriority _ _ => KSetPriority
  | LoggedError _ => KLoggedError
  end.

Fixpoint emit_steps_of_kinds (current : nat) (ks : list kind) : list nat :=
  match ks with
  | [] => []
  | KScalars g :: ks' => emit_steps_of_kinds (S g) ks'
  | KEmit :: ks' => current :: emit_steps_of_kinds current ks'
  | _ :: ks' => emit_steps_of_kinds current ks'
  end.

(** The kinds of events of one step, one call of [train] and a run of
    [main], when nothing fails. *)
Definition step_kinds (sync_interval : Z) (g : nat) : list kind :=
  KScalars g ::
  (if Z.eqb (Z.of_nat (g + 1) mod sync_interval) 0
   then [KEmit; KSync; KSetPriority] else []).

Definition train_kinds (sync_interval : Z) (g : nat) : list kind :=
  KSync :: flat_map (step_kinds sync_interval) (seq g local_epochs).

Fixpoint main_kinds (sync_interval : Z) (g : nat) (epochs : nat) : list kind :=
  match epochs with
  | O => []
  | S epochs' =>
    train_kinds sync_interval g ++ main_kinds sync_interval (g + local_epochs) epochs'
  end.

End Gpt2Wiki.

(** ** core_server: further notions for the supervision loop *)

Module Lifetimes.
Import Worker Supervisor.

(** The child has ended by instant [t]. *)
Definition ended_by (t : nat) (f : fate) : Prop :=
  match f with
  | Serving => False
  | Finishes t' _ | Dies t' _ => t' <= t
  end.

(** [n] reads of the property [p.exception] in a row: the handle after the
    last read and what each read returned or raised, oldest first. *)
Fixpoint read_exception (n : nat) (snap : snapshot) (p : handle)
  : handle * list (result msg) :=
  match n with
  | O => (p, [])
  | S n' =>
    let '(p1, r) := exception snap p in
    let '(p2, rs) := read_exception n' snap p1 in
    (p2, r :: rs)
  end.

(** Every started worker is on the dict or was joined, never both, and
    nothing was terminated. *)
Definition accounted (n_workers : nat) (s : sup) : Prop :=
  keys (processes s) ++ joined s ≡ₚ seq 0 n_workers /\
  started s = seq 0 n_workers /\
  terminated s = [].

(** What the books say once an exception has left the loop: [terminate]
    was called on every worker of the dict, and the exception is the
    [ChildProcessError] of the loop, or on none. *)
Definition closed_books (n_workers : nat) (ex : exn) (s : sup) : Prop :=
  keys (processes s) ++ joined s ≡ₚ seq 0 n_workers /\
  started s = seq 0 n_workers /\
  (((exists trace, ex = ChildProcessError trace) /\
    terminated s = keys (processes s)) \/
   terminated s = []).

End Lifetimes.

(** ** core_server: further notions for the fan-out and the run *)

Module FanoutMore.
Import Fanout Neuron.

(** Every setting of [config] in [h0] reads the same from [sub] in [h],
    other than the three attributes the fan-out assigns: [name] and
    [hotkey] of the section object that [wallet] names, and [port] of the
    one that [axon] names. *)
Definition keeps (h0 : heap) (config : loc) (h : heap) (sub : loc) : Prop :=
  forall section name v,
    (get_section h0 config section = get_section h0 config "wallet" ->
     name <> "name" /\ name <> "hotkey") ->
    (get_section h0 config section = get_section h0 config "axon" ->
     name <> "port") ->
    read h0 config section name = Ok v -> read h sub section name = Ok v.

(** The configuration that the in-process branch of [neuron.run] hands to
    [serve]: [self.config], when there is exactly one sub-configuration. *)
Definition served_config (self : neuron) : option loc :=
  if Nat.eqb (length (shared_subconfigs self)) 1 then Some (config self) else None.

(** A pair of the fan-out that can be read: a key [cold:hot] and an integer
    port. *)
Definition readable (entry : string * string) : Prop :=
  (exists coldkey hotkey, key_entry entry.1 coldkey hotkey) /\
  is_Some (py_int entry.2).

End FanoutMore.


(** ** gpt2-wiki: the errors of a run and the loop of [main] *)

Module Gpt2WikiMain.
Import Gpt2Wiki.

Local Open Scope Q_scope.

Definition is_error (ev : event) : bool :=
  match ev with
  | LoggedError _ => true
  | _ => false
  end.

(** How many times the handler of the step loop has logged an exception. *)
Definition errors_logged (events : list event) : nat :=
  length (List.filter is_error events).

(** The steps, counted from one, that are multiples of [sync_interval]. *)
Definition publishes (sync_interval : Z) (step : nat) : bool :=
  Z.eqb (Z.of_nat step mod sync_interval) 0.

(** One [torch.save] of lines 167-168 together with the scalar of line 169. *)
Record save := Save {
  save_epoch : nat;
  save_loss : Q;
  save_step : nat;
}.

(** What [main] keeps between two calls of [train]: [best_train_loss], where
    [None] stands for [math.inf], and the saves made so far, oldest
    first. *)
Record progress := Progress {
  best_train_loss : option Q;
  saves : list save;
}.

(** [train_loss < best_train_loss] *)
Definition improves (train_loss : Q) (best : option Q) : bool :=
  match best with
  | None => true
  | Some b => negb (Qle_bool b train_loss)
  end.

(** Lines 160-169: [if output:] and what follows. *)
Definition after_train (epoch global_step : nat) (out : option output)
    (p : progress) : progress :=
  match out with
  | None => p
  | Some o =>
    let train_loss := local_target_loss o in
    if improves train_loss (best_train_loss p)
    then Progress (Some train_loss) (saves p ++ [Save epoch train_loss global_step])
    else p
  end.

(** How [main] can stand after a bounded number of rounds of [while True]. *)
Inductive main_outcome :=
| MainRunning (epoch global_step : nat) (p : progress) (st : state)
| MainRaised (err : exn) (p : progress) (st : state)
| MainTraining (l : locals) (p : progress) (st : state).

(** The first [rounds] rounds of [while True] (lines 153-169), from the
    round numbered [epoch]; every call of [train] gets [fuel] iterations. *)
Fixpoint main (rounds fuel : nat) (e : env) (sync_interval : Z)
    (epoch global_step : nat) (p : progress) (st : state) : main_outcome :=
  match rounds with
  | O => MainRunning epoch global_step p st
  | S rounds' =>
    match train fuel e sync_interval global_step st with
    | TrainReturned out global_step' st' =>
      main rounds' fuel e sync_interval (S epoch) global_step'
           (after_train epoch global_step' out p) st'
    | TrainRaised err st' => MainRaised err p st'
    | Training l st' => MainTraining l p st'
    end
  end.

(** [best_train_loss = math.inf] and nothing saved. *)
Definition no_progress : progress := Progress None [].

Definition progress_of (o : main_outcome) : progress :=
  match o with
  | MainRunning _ _ p _ | MainRaised _ p _ | MainTraining _ p _ => p
  end.

End Gpt2WikiMain.

(** ** core_server: the synapse flags of [neuron.__init__] *)

Module Flags.
Import Fanout.




(** [config.neuron.<name> = arg if arg != None else config.neuron.<name>] *)
Definition override (h : heap) (config : loc) (name : string) (arg : scalar)
  : result heap :=
  bind (match arg with
        | SNone => read h config "neuron" name
        | v => Ok v
        end) (fun v =>
  write h config "neuron" name v).




End Flags.
(** * Properties *)

(** ** The [Process] wrapper *)

Module WorkerFacts.
Import Worker Supervisor Lifetimes.


Lemma exception_pending snap p m rest :
  drop (received p) (sent snap) = Readable m :: rest ->
  exception snap p = (Handle (S (received p)) m, Ok m).
Proof. intros H. unfold exception. now rewrite H. Qed.

Lemma exception_broken snap p err rest :
  drop (received p) (sent snap) = Unreadable err :: rest ->
  exception snap p = (Handle (S (received p)) (_exception p), Raise err).
Proof. intros H. unfold exception. now rewrite H. Qed.

Lemma exception_drained snap p :
  drop (received p) (sent snap) = [] ->
  exception snap p = (p, Ok (_exception p)).
Proof. intros H. unfold exception. now rewrite H. Qed.

(** Once an object has been received, a further read returns it from the
    cache when the pipe holds nothing more. *)
Lemma exception_cached snap p m :
  drop (received p) (sent snap) = [Readable m] ->
  exception snap (fst (exception snap p)) = (Handle (S (received p)) m, Ok m).
Proof.
  intros H. rewrite (exception_pending _ _ _ _ H). simpl.
  apply exception_drained. simpl.
  replace (S (received p)) with (received p + 1) by lia.
  rewrite <- drop_drop, H. reflexivity.
Qed.

(** Any number of reads after the one object of the pipe. *)
Lemma reads_are_cached snap p m n :
  drop (received p) (sent snap) = [Readable m] ->
  read_exception (S n) snap p =
    (Handle (S (received p)) m, replicate (S n) (Ok m)).
Proof.
  intros Hd. simpl. rewrite (exception_pending _ _ _ _ Hd).
  assert (Hrest : forall k,
            read_exception k snap (Handle (S (received p)) m) =
              (Handle (S (received p)) m, replicate k (Ok m))).
  { induction k as [|k IH]; [reflexivity|]. simpl.
    rewrite exception_drained, IH; [reflexivity|]. simpl.
    replace (S (received p)) with (received p + 1) by lia.
    now rewrite <- drop_drop, Hd. }
  now rewrite Hrest.
Qed.

(** What the parent sees of a child once its target has ended. *)
Lemma snapshot_after t body now :
  t <= now ->
  snapshot_of (Finishes t body) now =
    match child_main body with
    | (sent, Some code) => Snapshot (Exited code) sent
    | (sent, None) => Snapshot Running sent
    end.
Proof. intros H. simpl. now destruct (Nat.ltb_spec now t); [lia|]. Qed.

Lemma snapshot_before t body now :
  now < t -> snapshot_of (Finishes t body) now = Snapshot Running [].
Proof. intros H. simpl. now destruct (Nat.ltb_spec now t); [|lia]. Qed.



End WorkerFacts.

(** ** The supervision loop *)

Module SupervisorFacts.
Import Worker Supervisor Lifetimes WorkerFacts.

Section Dict.
Context {V : Type}.
Implicit Types (d : list (nat * V)) (n k : nat) (v : V).

Lemma dict_get_Some_keys d n v : dict_get d n = Some v -> n ∈ keys d.
Proof.
  induction d as [|[k u] d IH]; simpl; [discriminate|].
  destruct (Nat.eqb_spec k n) as [->|Hne]; intros H.
  - left.
  - right. auto.
Qed.

Lemma dict_get_keys d n : n ∈ keys d -> exists v, dict_get d n = Some v.
Proof.
  induction d as [|[k u] d IH]; simpl; intros H.
  - inversion H.
  - destruct (Nat.eqb_spec k n) as [->|Hne]; [eauto|].
    apply elem_of_cons in H as [H|H]; [congruence|auto].
Qed.

Lemma dict_get_elem d n v : dict_get d n = Some v -> (n, v) ∈ d.
Proof.
  induction d as [|[k u] d IH]; simpl; [discriminate|].
  destruct (Nat.eqb_spec k n) as [->|Hne]; intros H.
  - injection H as ->. left.
  - right. auto.
Qed.

Lemma dict_set_same d n v : dict_get d n = Some v -> dict_set d n v = d.
Proof.
  induction d as [|[k u] d IH]; simpl; [discriminate|].
  destruct (Nat.eqb_spec k n) as [->|Hne]; intros H.
  - now injection H as ->.
  - now rewrite IH.
Qed.

Lemma keys_dict_set d n v : n ∈ keys d -> keys (dict_set d n v) = keys d.
Proof.
  induction d as [|[k u] d IH]; simpl; intros H.
  - inversion H.
  - destruct (Nat.eqb_spec k n) as [->|Hne]; [reflexivity|].
    simpl. f_equal. apply IH.
    apply elem_of_cons in H as [H|H]; [congruence|assumption].
Qed.

Lemma dict_set_fresh d n v : n ∉ keys d -> dict_set d n v = d ++ [(n, v)].
Proof.
  induction d as [|[k u] d IH]; simpl; intros H; [reflexivity|].
  destruct (Nat.eqb_spec k n) as [->|Hne].
  - exfalso. apply H. left.
  - f_equal. apply IH. intros Hin. apply H. now right.
Qed.

Lemma dict_get_set d n v : n ∈ keys d -> dict_get (dict_set d n v) n = Some v.
Proof.
  induction d as [|[k u] d IH]; simpl; intros H.
  - inversion H.
  - destruct (Nat.eqb_spec k n) as [->|Hne]; simpl.
    + now rewrite Nat.eqb_refl.
    + destruct (Nat.eqb_spec k n); [congruence|].
      apply IH. apply elem_of_cons in H as [H|H]; [congruence|assumption].
Qed.

Lemma dict_del_set d n v : dict_del (dict_set d n v) n = dict_del d n.
Proof.
  induction d as [|[k u] d IH]; simpl.
  - now rewrite Nat.eqb_refl.
  - destruct (Nat.eqb_spec k n) as [->|Hne]; simpl.
    + now rewrite Nat.eqb_refl.
    + destruct (Nat.eqb_spec k n); [congruence|]. now rewrite IH.
Qed.

Lemma dict_del_sub d n x : x ∈ dict_del d n -> x ∈ d.
Proof.
  induction d as [|[k u] d IH]; simpl; [auto|].
  destruct (Nat.eqb_spec k n) as [->|Hne]; intros H.
  - now right.
  - apply elem_of_cons in H as [->|H]; [left|right; auto].
Qed.

Lemma keys_dict_del d n k :
  NoDup (keys d) -> k ∈ keys (dict_del d n) <-> k ∈ keys d /\ k <> n.
Proof.
  induction d as [|[k' u] d IH]; simpl; intros Hnd.
  - split; [intros H; inversion H | intros [H _]; inversion H].
  - apply NoDup_cons in Hnd as [Hk' Hnd].
    destruct (Nat.eqb_spec k' n) as [->|Hne]; simpl.
    + split.
      * intros H. split; [now right|]. intros ->. contradiction.
      * intros [H Hkn]. apply elem_of_cons in H as [H|H]; [congruence|assumption].
    + rewrite !elem_of_cons, IH by assumption. split.
      * intros [->|[H1 H2]]; auto.
      * intros [[->|H1] H2]; auto.
Qed.

Lemma NoDup_keys_dict_del d n : NoDup (keys d) -> NoDup (keys (dict_del d n)).
Proof.
  induction d as [|[k u] d IH]; simpl; intros Hnd; [constructor|].
  apply NoDup_cons in Hnd as [Hk Hnd].
  destruct (Nat.eqb_spec k n) as [->|Hne]; simpl; [assumption|].
  apply NoDup_cons. split; [|auto].
  intros Hin. apply keys_dict_del in Hin as [Hin _]; auto.
Qed.

End Dict.

(** *** One poll, in any world *)

(** A process that was started and is not alive has an exit status: the
    branch [if p.exitcode is None] is never taken. *)
Lemma dead_has_status snap :
  is_alive snap = false -> exists code, exitcode snap = Some code.
Proof.
  unfold is_alive, exitcode. destruct (status_of snap); [discriminate|eauto].
Qed.

Lemma poll_alive w n s p c :
  dict_get (processes s) n = Some (p, c) ->
  is_alive (w (S (clock s)) n) = true ->
  poll w n s = inl (observe n (sleep s)).
Proof. intros Hget Ha. unfold poll. rewrite Hget. simpl. now rewrite Ha. Qed.

(** A dead child whose pipe holds one unread pair: the fault branch, whatever
    the exit status. *)
Lemma poll_fault w n s p c code e tb :
  dict_get (processes s) n = Some (p, c) ->
  is_alive (w (S (clock s)) n) = false ->
  exitcode (w (S (clock s)) n) = Some code ->
  drop (received p) (sent (w (S (clock s)) n)) = [Readable (Some (e, tb))] ->
  poll w n s =
    inr (ChildProcessError tb,
         terminate_all (with_processes (observe n (sleep s))
           (dict_set (processes s) n (Handle (S (received p)) (Some (e, tb)), c)))).
Proof.
  intros Hget Ha Hc Hd. unfold poll. rewrite Hget. simpl. rewrite Ha, Hc.
  pose proof (exception_cached _ _ _ Hd) as H2.
  rewrite (exception_pending _ _ _ _ Hd) in *. simpl in H2. rewrite H2. simpl.
  do 2 f_equal. unfold terminate_all, with_processes. simpl.
  assert (Hin : n ∈ keys (processes s)) by eauto using dict_get_Some_keys.
  assert (Hss : forall v, dict_set (dict_set (processes s) n v) n v =
                          dict_set (processes s) n v).
  { intros v. apply dict_set_same, dict_get_set, Hin. }
  now rewrite Hss.
Qed.

(** A dead child whose pipe holds an object that cannot be rebuilt: the
    exception of [recv()] leaves the loop; nothing is terminated. *)
Lemma poll_broken w n s p c code err rest :
  dict_get (processes s) n = Some (p, c) ->
  is_alive (w (S (clock s)) n) = false ->
  exitcode (w (S (clock s)) n) = Some code ->
  drop (received p) (sent (w (S (clock s)) n)) = Unreadable err :: rest ->
  poll w n s =
    inr (err,
         with_processes (observe n (sleep s))
           (dict_set (processes s) n (Handle (S (received p)) (_exception p), c))).
Proof.
  intros Hget Ha Hc Hd. unfold poll. rewrite Hget. simpl. rewrite Ha, Hc.
  now rewrite (exception_broken _ _ _ _ Hd).
Qed.

(** A dead child with status 0 and nothing but [None] to read: reaped. *)
Lemma poll_reap w n s p c m :
  dict_get (processes s) n = Some (p, c) ->
  is_alive (w (S (clock s)) n) = false ->
  exitcode (w (S (clock s)) n) = Some 0%Z ->
  exception (w (S (clock s)) n) p = (m, Ok None) ->
  poll w n s =
    inl (Sup (S (clock s)) (dict_del (processes s) n) (started s) (terminated s)
             (joined s ++ [n]) (polled s ++ [(S (clock s), n)])).
Proof.
  intros Hget Ha Hc He. unfold poll. rewrite Hget. simpl. rewrite Ha, Hc, He.
  simpl. unfold with_processes, join. simpl. now rewrite dict_del_set.
Qed.

(** A dead child with a non-zero status and an empty fault slot: none of the
    three branches. *)
Lemma poll_no_branch w n s p c code :
  dict_get (processes s) n = Some (p, c) ->
  is_alive (w (S (clock s)) n) = false ->
  exitcode (w (S (clock s)) n) = Some code ->
  code <> 0%Z ->
  drop (received p) (sent (w (S (clock s)) n)) = [] ->
  _exception p = None ->
  poll w n s = inl (observe n (sleep s)).
Proof.
  intros Hget Ha Hc Hne Hd Hex. unfold poll. rewrite Hget. simpl.
  rewrite Ha, Hc, (exception_drained _ _ Hd), Hex.
  destruct (Z.eqb_spec code 0) as [?|_]; [contradiction|].
  unfold with_processes, observe, sleep. simpl.
  now rewrite (dict_set_same _ _ _ Hget).
Qed.

(** *** Polls in a world of children with a fate *)

Section Fates.
Variable fates : list fate.
Local Abbreviation W := (world_of fates).

(** No [is_alive] call recorded in [calls] found a child whose pair could
    be read. *)
Definition quiet (calls : list (nat * nat)) : Prop :=
  forall c i f, (c, i) ∈ calls -> fates !! i = Some f -> shows_fault f c = false.

(** What holds of the parent's state as long as no exception has left the
    loop: the handles are untouched, the keys are distinct and name started
    children, a child is off the dict only once it was joined after a
    clean exit, and there was one [is_alive] call at every instant so far,
    none of which found a pair to read. *)
Record inv (s : sup) : Prop := {
  inv_handles : forall n p c, (n, (p, c)) ∈ processes s ->
                  p = new_handle /\ n < length fates;
  inv_nodup : NoDup (keys (processes s));
  inv_accounted : forall i, i < length fates ->
                  i ∈ keys (processes s) \/ i ∈ joined s;
  inv_joined : forall i, i ∈ joined s ->
               exists f, fates !! i = Some f /\ clean_exit f = true;
  inv_polled : map fst (polled s) = seq 1 (clock s);
  inv_quiet : quiet (polled s);
}.

Lemma polled_next s n :
  map fst (polled s) = seq 1 (clock s) ->
  map fst (polled s ++ [(S (clock s), n)]) = seq 1 (S (clock s)).
Proof.
  intros H. rewrite map_app, H, seq_S. reflexivity.
Qed.

Lemma quiet_next calls c n f :
  quiet calls -> fates !! n = Some f -> shows_fault f c = false ->
  quiet (calls ++ [(c, n)]).
Proof.
  intros Hq Hf Hs c' i f' Hin Hf'.
  apply elem_of_app in Hin as [Hin|Hin]; [eauto|].
  apply list_elem_of_singleton in Hin. injection Hin as -> ->.
  congruence.
Qed.

Lemma inv_observe s n f :
  inv s -> fates !! n = Some f -> shows_fault f (S (clock s)) = false ->
  inv (observe n (sleep s)).
Proof.
  intros [H1 H2 H3 H4 H5 H6] Hf Hs. constructor; simpl; auto.
  - now apply polled_next.
  - now apply (quiet_next _ _ _ f).
Qed.

(** The four ways a poll can go. *)
Lemma poll_fate s n :
  inv s -> n ∈ keys (processes s) ->
  (poll W n s = inl (observe n (sleep s)) /\
   exists f, fates !! n = Some f /\ shows_fault f (S (clock s)) = false)
  \/ (poll W n s =
        inl (Sup (S (clock s)) (dict_del (processes s) n) (started s)
                 (terminated s) (joined s ++ [n])
                 (polled s ++ [(S (clock s), n)])) /\
      exists f, fates !! n = Some f /\ clean_exit f = true)
  \/ (exists t e tb s',
        fates !! n = Some (Finishes t (BodyRaises e tb Delivered)) /\
        t <= S (clock s) /\
        poll W n s = inr (ChildProcessError tb, s') /\
        clock s' = S (clock s) /\
        keys (processes s') = keys (processes s) /\
        started s' = started s /\
        terminated s' = terminated s ++ keys (processes s) /\
        joined s' = joined s /\
        polled s' = polled s ++ [(S (clock s), n)])
  \/ (exists t e tb err s',
        fates !! n = Some (Finishes t (BodyRaises e tb (Garbled err))) /\
        t <= S (clock s) /\
        poll W n s = inr (err, s') /\
        clock s' = S (clock s) /\
        keys (processes s') = keys (processes s) /\
        started s' = started s /\
        terminated s' = terminated s /\
        joined s' = joined s /\
        polled s' = polled s ++ [(S (clock s), n)]).
Proof.
  intros Hinv Hin.
  destruct (dict_get_keys _ _ Hin) as [[p c] Hget].
  destruct (inv_handles _ Hinv _ _ _ (dict_get_elem _ _ _ Hget)) as [-> Hlt].
  destruct (lookup_lt_is_Some_2 fates n Hlt) as [f Hf].
  assert (Hw : forall now, W now n = snapshot_of f now).
  { intros now. unfold world_of. now rewrite Hf. }
  assert (Halive : is_alive (snapshot_of f (S (clock s))) = true ->
                   shows_fault f (S (clock s)) = false ->
                   poll W n s = inl (observe n (sleep s)) /\
                   exists f', fates !! n = Some f' /\
                              shows_fault f' (S (clock s)) = false).
  { intros Ha Hs. split; [|eauto].
    apply (poll_alive _ _ _ _ _ Hget). now rewrite Hw. }
  assert (Hlinger : forall code,
            snapshot_of f (S (clock s)) = Snapshot (Exited code) [] ->
            code <> 0%Z -> shows_fault f (S (clock s)) = false ->
            poll W n s = inl (observe n (sleep s)) /\
            exists f', fates !! n = Some f' /\
                       shows_fault f' (S (clock s)) = false).
  { intros code Hs Hne Hshow. split; [|eauto].
    apply (poll_no_branch _ _ _ _ _ code Hget); now rewrite ?Hw, ?Hs. }
  assert (Hreap : forall sent0 m,
            snapshot_of f (S (clock s)) = Snapshot (Exited 0) sent0 ->
            exception (Snapshot (Exited 0) sent0) new_handle = (m, Ok None) ->
            clean_exit f = true ->
            poll W n s =
              inl (Sup (S (clock s)) (dict_del (processes s) n) (started s)
                       (terminated s) (joined s ++ [n])
                       (polled s ++ [(S (clock s), n)])) /\
            exists f', fates !! n = Some f' /\ clean_exit f' = true).
  { intros sent0 m Hs He Hclean. split; [|eauto].
    apply (poll_reap _ _ _ _ _ m Hget); now rewrite ?Hw, ?Hs. }
  destruct f as [|t body|t code].
  - left. now apply Halive.
  - destruct (Nat.ltb_spec (S (clock s)) t) as [Hbefore|Hafter].
    + left. apply Halive.
      * now rewrite snapshot_before.
      * simpl. destruct body as [|e tb [|err|err|]|b]; try reflexivity.
        now apply Nat.leb_gt.
    + pose proof (snapshot_after t body _ Hafter) as Hs.
      destruct body as [|e tb [|err|err|]|b];
        cbn [child_main run send bootstrap_exitcode app] in Hs.
      * right. left. now apply (Hreap [Readable None] (Handle 1 None)).
      * right. right. left. exists t, e, tb. eexists.
        split; [assumption|]. split; [lia|].
        split; [apply (poll_fault _ _ _ _ _ 0%Z e tb Hget); now rewrite Hw, Hs|].
        simpl. rewrite keys_dict_set by assumption. auto 10.
      * right. right. right. exists t, e, tb, err. eexists.
        split; [assumption|]. split; [lia|].
        split; [apply (poll_broken _ _ _ _ _ 0%Z err [] Hget); now rewrite Hw, Hs|].
        simpl. rewrite keys_dict_set by assumption. auto 10.
      * left. now apply (Hlinger 1%Z).
      * left. apply Halive; [now rewrite Hs|reflexivity].
      * destruct b as [status| |name].
        -- destruct (Z.eqb_spec (status mod 256) 0) as [Hz|Hnz].
           ++ right. left. rewrite Hz in Hs.
              apply (Hreap [] new_handle); [assumption|reflexivity|].
              simpl. now rewrite Hz.
           ++ left. now apply (Hlinger (status mod 256)%Z).
        -- left. now apply (Hlinger 1%Z).
        -- left. now apply (Hlinger 1%Z).
  - destruct (Nat.ltb_spec (S (clock s)) t) as [Hbefore|Hafter].
    + left. apply Halive; [|reflexivity]. simpl.
      now destruct (Nat.ltb_spec (S (clock s)) t); [|lia].
    + assert (Hs : snapshot_of (Dies t code) (S (clock s)) = Snapshot (Exited code) []).
      { simpl. now destruct (Nat.ltb_spec (S (clock s)) t); [lia|]. }
      destruct (Z.eq_dec code 0%Z) as [->|Hne].
      * right. left. apply (Hreap [] new_handle); [assumption|reflexivity|reflexivity].
      * left. now apply (Hlinger code).
Qed.

Lemma inv_reap s n f :
  inv s -> n ∈ keys (processes s) ->
  fates !! n = Some f -> clean_exit f = true ->
  inv (Sup (S (clock s)) (dict_del (processes s) n) (started s) (terminated s)
           (joined s ++ [n]) (polled s ++ [(S (clock s), n)])).
Proof.
  intros [H1 H2 H3 H4 H5 H6] Hin Hf Hclean. constructor; simpl.
  - intros k p c Hk. eapply H1, dict_del_sub, Hk.
  - now apply NoDup_keys_dict_del.
  - intros i Hi. destruct (Nat.eq_dec i n) as [->|Hne].
    + right. apply elem_of_app. right. left.
    + destruct (H3 i Hi) as [Hk|Hj].
      * left. now apply keys_dict_del.
      * right. apply elem_of_app. now left.
  - intros i Hi. apply elem_of_app in Hi as [Hi|Hi]; [auto|].
    apply list_elem_of_singleton in Hi as ->. eauto.
  - now apply polled_next.
  - apply (quiet_next _ _ _ f); [assumption|assumption|].
    destruct f as [|t [|e tb d|b]|t code]; try reflexivity. discriminate.
Qed.

(** What holds once the loop has raised a [ChildProcessError]: the message
    is the traceback of a child whose target raised, and the [is_alive]
    call that found it is the last one made, no earlier call having found a
    pair to read; [terminate] went to exactly the processes still on the
    dict, and every child is either among them or was joined after a clean
    exit. *)
Definition raised_ok (ex : exn) (s : sup) : Prop :=
  exists j t e tb earlier,
    fates !! j = Some (Finishes t (BodyRaises e tb Delivered)) /\
    ex = ChildProcessError tb /\
    t <= clock s /\
    j ∈ keys (processes s) /\
    terminated s = keys (processes s) /\
    polled s = earlier ++ [(clock s, j)] /\
    quiet earlier /\
    map fst (polled s) = seq 1 (clock s) /\
    forall i, i < length fates ->
      i ∈ terminated s \/
      (i ∈ joined s /\ exists f, fates !! i = Some f /\ clean_exit f = true).

(** What holds once the exception of a [recv()] has left the loop: it came
    from a child whose pair cannot be rebuilt, and nothing was
    terminated. *)
Definition broken_ok (ex : exn) (s : sup) : Prop :=
  exists j t e tb,
    fates !! j = Some (Finishes t (BodyRaises e tb (Garbled ex))) /\
    t <= clock s /\
    j ∈ keys (processes s) /\
    terminated s = [].

Lemma for_loop_fate ns : forall s,
  inv s -> terminated s = [] -> NoDup ns ->
  (forall n, n ∈ ns -> n ∈ keys (processes s)) ->
  match for_loop W ns s with
  | inl s' =>
      inv s' /\ terminated s' = [] /\ clock s' = clock s + length ns /\
      started s' = started s /\
      (forall k f, k ∈ ns -> fates !! k = Some f ->
         exists c, clock s < c /\ shows_fault f c = false)
  | inr (ex, s') => (raised_ok ex s' \/ broken_ok ex s') /\ started s' = started s
  end.
Proof.
  induction ns as [|n ns IH]; intros s Hinv Hterm Hnd Hsub; simpl.
  - split; [assumption|]. split; [assumption|]. split; [lia|]. split; [reflexivity|].
    intros k f Hk. inversion Hk.
  - apply NoDup_cons in Hnd as [Hn Hnd].
    assert (Hin : n ∈ keys (processes s)) by (apply Hsub; left).
    destruct (poll_fate s n Hinv Hin)
      as [[-> (f & Hf & Hshow)]
         |[[-> (f & Hf & Hclean)]
          |[(t & e & tb & s' & Hf & Ht & -> & Hc & Hk & Hst & Htm & Hj & Hp)
           |(t & e & tb & err & s' & Hf & Ht & -> & Hc & Hk & Hst & Htm & Hj & Hp)]]].
    + pose proof (inv_observe s n f Hinv Hf Hshow) as Hinv'.
      specialize (IH (observe n (sleep s)) Hinv' Hterm Hnd).
      destruct (for_loop W ns (observe n (sleep s))) as [s'|[ex s']].
      * destruct IH as (H1 & H2 & H3 & H4 & H5); [intros; apply Hsub; now right|].
        simpl in *. split; [assumption|]. split; [assumption|].
        split; [lia|]. split; [assumption|].
        intros k f' Hk Hf'. apply elem_of_cons in Hk as [->|Hk].
        -- exists (S (clock s)). split; [lia|]. congruence.
        -- destruct (H5 _ _ Hk Hf') as (c & Hc & Hs). exists c. split; [lia|assumption].
      * apply IH. intros; apply Hsub; now right.
    + pose proof (inv_reap s n f Hinv Hin Hf Hclean) as Hinv'.
      specialize (IH _ Hinv' Hterm Hnd).
      assert (Hsub' : forall m, m ∈ ns -> m ∈ keys (dict_del (processes s) n)).
      { intros m Hm. apply keys_dict_del; [apply Hinv|].
        split; [apply Hsub; now right|]. intros ->. contradiction. }
      destruct (for_loop W ns _) as [s'|[ex s']].
      * destruct (IH Hsub') as (H1 & H2 & H3 & H4 & H5).
        simpl in *. split; [assumption|]. split; [assumption|].
        split; [lia|]. split; [assumption|].
        intros k f' Hk Hf'. apply elem_of_cons in Hk as [->|Hk].
        -- exists (S (clock s)). split; [lia|].
           assert (f' = f) as -> by congruence.
           destruct f as [|t [|e tb d|b]|t code]; try reflexivity. discriminate.
        -- destruct (H5 _ _ Hk Hf') as (c & Hc & Hs). exists c. split; [lia|assumption].
      * apply (IH Hsub').
    + split; [|assumption]. left.
      exists n, t, e, tb, (polled s). rewrite Htm, Hterm, Hk, Hc, Hp. simpl.
      split; [assumption|]. split; [reflexivity|]. split; [assumption|].
      split; [assumption|]. split; [reflexivity|]. split; [reflexivity|].
      split; [apply Hinv|]. split; [apply polled_next, Hinv|].
      intros i Hi. destruct (inv_accounted _ Hinv i Hi) as [Hik|Hij]; [now left|].
      right. rewrite Hj. split; [assumption|]. now apply (inv_joined _ Hinv).
    + split; [|assumption]. right.
      exists n, t, e, tb. rewrite Htm, Hk, Hc.
      split; [assumption|]. split; [assumption|]. split; assumption.
Qed.

(** A child that does not exit cleanly stays on the dict. *)
Lemma unclean_stays s k f :
  inv s -> fates !! k = Some f -> clean_exit f = false -> k ∈ keys (processes s).
Proof.
  intros Hinv Hf Hc.
  destruct (inv_accounted _ Hinv k) as [Hk|Hj]; [eauto using lookup_lt_Some|assumption|].
  destruct (inv_joined _ Hinv _ Hj) as (f' & Hf' & Hc'). congruence.
Qed.

Lemma while_loop_step rounds w s k :
  k ∈ keys (processes s) ->
  0 < length (keys (processes s)) /\
  while_loop (S rounds) w s =
    match for_loop w (keys (processes s)) s with
    | inl s' => while_loop rounds w s'
    | inr (e, s') => Raised e s'
    end.
Proof.
  intros Hk. simpl. destruct (processes s); [inversion Hk|]. simpl. split; [lia|reflexivity].
Qed.

Lemma while_loop_O w s k :
  k ∈ keys (processes s) -> while_loop 0 w s = Polling s.
Proof. intros Hk. simpl. destruct (processes s); [inversion Hk|reflexivity]. Qed.


(** With no raising target, a child that does not exit cleanly keeps the
    loop polling for ever. *)
Lemma while_loop_polls k f :
  fates !! k = Some f -> clean_exit f = false ->
  (forall i g, fates !! i = Some g -> faults g = false) ->
  forall rounds s,
  inv s -> terminated s = [] ->
  exists s', while_loop rounds W s = Polling s' /\ inv s' /\
             terminated s' = [] /\ started s' = started s /\
             clock s + rounds <= clock s'.
Proof.
  intros Hf Hc Hnofault.
  induction rounds as [|rounds IH]; intros s Hinv Hterm;
    assert (Hk : k ∈ keys (processes s)) by (eapply unclean_stays; eauto).
  - rewrite (while_loop_O W s k Hk). exists s.
    split; [reflexivity|]. split; [assumption|]. split; [assumption|]. split; [reflexivity|lia].
  - destruct (while_loop_step rounds W s k Hk) as [Hlen ->].
    pose proof (for_loop_fate (keys (processes s)) s Hinv Hterm (inv_nodup _ Hinv)
                  (fun n H => H)) as Hfor.
    destruct (for_loop W (keys (processes s)) s) as [s'|[ex s']].
    + destruct Hfor as (H1 & H2 & H3 & H4 & H5).
      destruct (IH s' H1 H2) as (s'' & Hw & Hi & Ht & Hs & Hcl).
      exists s''. rewrite Hw.
      split; [reflexivity|]. split; [assumption|]. split; [assumption|]. split; [congruence|lia].
    + destruct Hfor as [[(j & t & e & tb & earlier & Hj & _)|(j & t & e & tb & Hj & _)] _];
        specialize (Hnofault _ _ Hj); discriminate.
Qed.

(** The state the start-up loop leaves. *)
Lemma spawn_spec cs : forall n s,
  (forall k, k ∈ keys (processes s) -> k < n) ->
  processes (spawn n cs s) =
    processes s ++ zip (seq n (length cs)) (map (pair new_handle) cs) /\
  started (spawn n cs s) = started s ++ seq n (length cs) /\
  clock (spawn n cs s) = clock s /\
  terminated (spawn n cs s) = terminated s /\
  joined (spawn n cs s) = joined s /\
  polled (spawn n cs s) = polled s.
Proof.
  induction cs as [|c cs IH]; intros n s Hlt; simpl.
  - now rewrite !app_nil_r.
  - rewrite dict_set_fresh by (intros H; apply Hlt in H; lia).
    destruct (IH (S n)
      (Sup (clock s) (processes s ++ [(n, (new_handle, c))])
           (started s ++ [n]) (terminated s) (joined s) (polled s)))
      as (H1 & H2 & H3 & H4 & H5 & H6).
    + simpl. unfold keys. rewrite map_app. intros k Hk.
      apply elem_of_app in Hk as [Hk|Hk]; [apply Hlt in Hk; lia|].
      apply list_elem_of_singleton in Hk as ->. simpl. lia.
    + simpl in *. rewrite H1, H2, <- !app_assoc. auto 10.
Qed.

Lemma spawned cs :
  processes (spawn 0 cs idle) = zip (seq 0 (length cs)) (map (pair new_handle) cs) /\
  started (spawn 0 cs idle) = seq 0 (length cs) /\
  clock (spawn 0 cs idle) = 0 /\
  terminated (spawn 0 cs idle) = [] /\
  joined (spawn 0 cs idle) = [] /\
  polled (spawn 0 cs idle) = [].
Proof. apply (spawn_spec cs 0 idle). intros k Hk. inversion Hk. Qed.

Lemma keys_spawned (cs : list loc) n :
  keys (zip (seq n (length cs)) (map (pair new_handle) cs)) = seq n (length cs).
Proof.
  unfold keys. apply fst_zip. rewrite length_map, length_seq. lia.
Qed.

Lemma inv_spawn cs :
  length cs = length fates ->
  inv (spawn 0 cs idle).
Proof.
  intros Hlen.
  destruct (spawned cs) as (H1 & H2 & H3 & H4 & H5 & H6).
  constructor.
  - intros n p c Hin. rewrite H1 in Hin.
    apply elem_of_zip_l in Hin as Hn. apply elem_of_zip_r in Hin as Hp.
    apply elem_of_seq in Hn. apply list_elem_of_fmap in Hp as (c' & Heq & _).
    injection Heq as -> _. split; [reflexivity|lia].
  - rewrite H1, keys_spawned. apply NoDup_seq.
  - intros i Hi. left. rewrite H1, keys_spawned. apply elem_of_seq. lia.
  - rewrite H5. intros i Hi. inversion Hi.
  - now rewrite H6, H3.
  - rewrite H6. intros c i f Hin. inversion Hin.
Qed.

End Fates.

(** C10: a child whose target raised has exit status 0, and the poll that
    finds it dead reads its fault slot before looking at that status: it
    calls [terminate] on every process of the dict and raises a
    [ChildProcessError] with the child's traceback; the child is not
    joined. *)
Theorem fault_slot_checked_before_exit_status
    (w : world) (n : nat) (s : sup) (p : handle) (c : loc)
    (t : nat) (e : exn) (tb : string) :
  dict_get (processes s) n = Some (p, c) ->
  received p = 0 ->
  t <= S (clock s) ->
  w (S (clock s)) n = snapshot_of (Finishes t (BodyRaises e tb Delivered)) (S (clock s)) ->
  exitcode (w (S (clock s)) n) = Some 0%Z /\
  exists s',
    poll w n s = inr (ChildProcessError tb, s') /\
    terminated s' = terminated s ++ keys (processes s) /\
    keys (processes s') = keys (processes s) /\
    joined s' = joined s.
Proof.
  intros Hget Hrec Ht Hw.
  assert (Hs : w (S (clock s)) n = Snapshot (Exited 0) [Readable (Some (e, tb))]).
  { rewrite Hw. now rewrite snapshot_after. }
  split; [now rewrite Hs|].
  eexists. split.
  - apply (poll_fault w n s p c 0%Z e tb Hget); rewrite Hs; try reflexivity.
    now rewrite Hrec.
  - simpl. rewrite keys_dict_set by eauto using dict_get_Some_keys. auto.
Qed.

(** Two workers, the second of which raised at instant 1: its first poll
    raises and terminates both. *)
Lemma fault_slot_checked_before_exit_status_witness :
  exists s',
    poll (world_of [Serving;
                    Finishes 1 (BodyRaises (UserError "RuntimeError") "trace" Delivered)]) 1
         (Sup 0 [(0, (new_handle, 1%positive)); (1, (new_handle, 1%positive))]
              [0; 1] [] [] [])
      = inr (ChildProcessError "trace", s') /\
    terminated s' = [0; 1].
Proof.
  destruct (fault_slot_checked_before_exit_status
              (world_of [Serving;
                         Finishes 1 (BodyRaises (UserError "RuntimeError") "trace" Delivered)]) 1
              (Sup 0 [(0, (new_handle, 1%positive)); (1, (new_handle, 1%positive))]
                   [0; 1] [] [] [])
              new_handle 1%positive 1 (UserError "RuntimeError") "trace"
              eq_refl eq_refl (le_n 1) eq_refl)
    as [_ (s' & Hp & Ht & _)].
  exists s'. split; [exact Hp | exact Ht].
Defined.




(** C9: a worker that stops being alive with a non-zero exit status and an
    empty fault slot matches none of the three branches.  A poll of it
    changes nothing but the clock (and the record of the poll): it is not
    reaped, nothing is terminated, nothing is raised; and when no target
    raises, the loop is still polling after any number of rounds, with that
    worker on the dict, never joined, and no [terminate] call made. *)
Theorem dead_worker_with_empty_slot_is_polled_forever
    (fates : list fate) (cfgs : list loc) (k t : nat) (code : Z) (rounds : nat) :
  length cfgs = length fates ->
  fates !! k = Some (Dies t code) ->
  code <> 0%Z ->
  (forall i f, fates !! i = Some f -> faults f = false) ->
  (forall s c, dict_get (processes s) k = Some (new_handle, c) ->
               t <= S (clock s) ->
               poll (world_of fates) k s = inl (observe k (sleep s))) /\
  exists s,
    supervise rounds (world_of fates) cfgs = Polling s /\
    k ∈ keys (processes s) /\
    (k ∉ joined s) /\
    terminated s = [] /\
    rounds <= clock s.
Proof.
  intros Hlen Hk Hcode Hnofault.
  assert (Hunclean : clean_exit (Dies t code) = false).
  { simpl. now destruct (Z.eqb_spec code 0). }
  split.
  - intros s c Hget Ht.
    assert (Hs : world_of fates (S (clock s)) k = Snapshot (Exited code) []).
    { unfold world_of. rewrite Hk. simpl.
      now destruct (Nat.ltb_spec (S (clock s)) t); [lia|]. }
    apply (poll_no_branch _ _ _ _ _ code Hget); now rewrite ?Hs.
  - destruct (spawned cfgs) as (_ & _ & Hclock & Hterm & _).
    destruct (while_loop_polls fates k _ Hk Hunclean Hnofault rounds
                (spawn 0 cfgs idle))
      as (s & Hw & Hinv & Hterm' & _ & Hcl); [now apply inv_spawn|assumption|].
    exists s. split; [exact Hw|]. split; [eapply unclean_stays; eauto|].
    split; [|split; [assumption|]].
    + intros Hj. destruct (inv_joined _ _ Hinv _ Hj) as (f & Hf & Hc). congruence.
    + rewrite Hclock in Hcl. simpl in Hcl. lia.
Qed.

(** Two workers, one serving and one killed by signal 9 at instant 2:
    after five rounds the loop is still polling both. *)
Lemma dead_worker_with_empty_slot_is_polled_forever_witness :
  exists s,
    supervise 5 (world_of [Serving; Dies 2 (-9)]) [2%positive; 3%positive] = Polling s /\
    1 ∈ keys (processes s) /\
    terminated s = [].
Proof.
  destruct (dead_worker_with_empty_slot_is_polled_forever
              [Serving; Dies 2 (-9)] [2%positive; 3%positive] 1 2 (-9)%Z 5
              eq_refl eq_refl ltac:(discriminate)
              ltac:(intros [|[|i]] f; simpl; intros [= <-]; reflexivity))
    as [_ (s & Hw & Hin & _ & Hterm & _)].
  exists s. split; [exact Hw|]. split; [exact Hin | exact Hterm].
Defined.

End SupervisorFacts.

(** ** The training loop *)

Module Gpt2WikiFacts.
Import Gpt2Wiki.

Lemma emit_steps_kinds evs : forall current,
  emit_steps current evs = emit_steps_of_kinds current (map kind_of evs).
Proof.
  induction evs as [|ev evs IH]; intros current; [reflexivity|].
  destruct ev; simpl; now rewrite IH.
Qed.

(** [W[:, 0]] is the list of the first entries of the rows. *)
Lemma col0_first_entries (m : matrix) (col : vector) :
  Forall2 (fun row x => head row = Some x) m col -> col0 m = Ok col.
Proof.
  induction 1 as [|row x m col Hrow _ IH]; [reflexivity|].
  destruct row as [|y row]; [discriminate|]. simpl in *.
  injection Hrow as ->. now rewrite IH.
Qed.

(** C7: a publish/pull cycle in which every call is answered calls, in this
    order, [emit] with the row of this step and [wait_for_inclusion = True],
    then [sync]; it then resets the row to the first row of the matrix just
    pulled and calls [set_priority] with the neurons of that same state and
    the first column of its matrix, that is the first entry of each of its
    rows. *)
Theorem publish_pull_order (e : env) (sync_interval : Z) (st : state) (l : locals)
    (out : output) (row : vector) (g' : metagraph) (row' : vector)
    (rows' : matrix) (col' : vector) :
  forward e (iterations st) = inr out ->
  backward e (iterations st) = None ->
  update_row (row_weights l) (weights out) = Ok row ->
  sync_interval <> 0%Z ->
  (Z.of_nat (global_step l + 1) mod sync_interval = 0)%Z ->
  emit e (iterations st) = None ->
  sync e (syncs st) = inr g' ->
  W g' = row' :: rows' ->
  Forall2 (fun r x => head r = Some x) (W g') col' ->
  set_priority e (iterations st) = None ->
  empty_cache e (iterations st) = None ->
  try_body e sync_interval st l =
    (State g' (iterations st) (S (syncs st))
       (log st ++ [Scalars (global_step l);
                   Emit row true;
                   Sync;
                   SetPriority (neurons g') col']),
     Locals row' (S (local_step l)) (S (global_step l)) (Some out),
     None).
Proof.
  intros Hf Hb Hrow HI Hmod He Hs Hr Hc Hp Hec.
  apply col0_first_entries in Hc.
  unfold try_body. rewrite Hf, Hb, Hrow.
  destruct (Z.eqb_spec sync_interval 0) as [?|_]; [contradiction|].
  rewrite Hmod. simpl Z.eqb. cbv iota.
  unfold publish_pull, metagraph_sync, emit_event. simpl.
  rewrite He, Hs. simpl. rewrite Hc, Hr. simpl. rewrite Hp, Hec.
  now rewrite <- !app_assoc.
Qed.

(** A two-peer metagraph and an environment over it in which no call fails. *)
Definition example_graph : metagraph :=
  Metagraph [[1 # 2; 1 # 2]; [1; 0]]%Q [7; 8].

Definition example_output : output := Output [[1; 0]; [0; 1]]%Q 1%Q.

Definition example_env : env :=
  Env (fun _ => inr example_output) (fun _ => None) (fun _ => None)
      (fun _ => inr example_graph) (fun _ => None)
      (fun _ => None) (fun _ => None) (fun _ => None).

Definition example_state : state := State example_graph 0 0 [].

Definition example_locals : locals := Locals [1 # 2; 1 # 2]%Q 0 0 None.

Definition example_row : vector :=
  Eval vm_compute in
    match update_row [1 # 2; 1 # 2]%Q [[1; 0]; [0; 1]]%Q with
    | Ok row => row
    | Raise _ => []
    end.

Lemma example_env_cooperative : cooperative 2 example_env.
Proof.
  split; [|split; [|split; [|split; [|split; [|split; [|split]]]]]];
    intros k; simpl; try reflexivity.
  - exists example_output. split; [reflexivity|]. split; [discriminate|].
    repeat constructor.
  - exists example_graph, [1 # 2; 1 # 2]%Q, [1 # 2; 1]%Q. auto.
Qed.

(** The first step of the example with [sync_interval = 1]: the row
    published is the updated one, the row kept is the first row of the
    example matrix, and the priorities are its first column, [1/2] and
    [1]. *)
Lemma publish_pull_order_witness :
  try_body example_env 1 example_state example_locals =
    (State example_graph 0 1
       [Scalars 0; Emit example_row true; Sync;
        SetPriority [7; 8] [1 # 2; 1]%Q],
     Locals [1 # 2; 1 # 2]%Q 1 1 (Some example_output),
     None).
Proof.
  exact (publish_pull_order example_env 1 example_state example_locals
           example_output example_row example_graph [1 # 2; 1 # 2]%Q
           [[1; 0]%Q] [1 # 2; 1]%Q
           eq_refl eq_refl eq_refl ltac:(discriminate) eq_refl eq_refl eq_refl
           eq_refl ltac:(repeat constructor) eq_refl eq_refl).
Defined.

(** *** Exceptions inside the loop *)

Lemma train_loop_never_raises e sync_interval : forall fuel st l err st',
  train_loop fuel e sync_interval st l <> TrainRaised err st'.
Proof.
  induction fuel as [|fuel IH]; intros st l err st'; simpl;
    destruct (Nat.ltb (local_step l) local_epochs); try discriminate.
  destruct (iteration e sync_interval st l) as [st1 l1]. apply IH.
Qed.

Local Ltac raised_here :=
  simpl; let H := fresh in intros H; injection H as <- <- <-; simpl; auto.

(** An exception leaves the step counters untouched, unless it is the one
    of line 143, which comes after their increments. *)
Lemma try_body_raise_steps e sync_interval st l st1 l1 err :
  try_body e sync_interval st l = (st1, l1, Some err) ->
  (local_step l1 = local_step l /\ global_step l1 = global_step l) \/
  (empty_cache e (iterations st) = Some err /\
   local_step l1 = S (local_step l) /\ global_step l1 = S (global_step l)).
Proof.
  unfold try_body, publish_pull, metagraph_sync.
  destruct (forward e (iterations st)) as [err0|out]; [raised_here|].
  destruct (backward e (iterations st)) as [err0|]; [raised_here|].
  destruct (update_row (row_weights l) (weights out)) as [row|err0]; [|raised_here].
  destruct (Z.eqb sync_interval 0); [raised_here|].
  destruct (Z.eqb _ 0); [|simpl; intros [= <- <- ->]; right; auto].
  simpl. destruct (emit e (iterations st)); [raised_here|].
  simpl. destruct (sync e _); [raised_here|].
  simpl. destruct (row0 _); [|raised_here].
  destruct (col0 _); [|raised_here].
  destruct (set_priority e (iterations st)); [raised_here|].
  simpl. intros [= <- <- ->]. right. auto.
Qed.

(** Before the last call of the body, an exception leaves the counters as
    they are. *)
Lemma try_body_raise_keeps_steps e sync_interval st l st1 l1 err :
  empty_cache e (iterations st) = None ->
  try_body e sync_interval st l = (st1, l1, Some err) ->
  local_step l1 = local_step l /\ global_step l1 = global_step l.
Proof.
  intros Hec Hbody.
  destruct (try_body_raise_steps _ _ _ _ _ _ _ Hbody) as [H|[H _]]; [assumption|].
  congruence.
Qed.

(** C3, as the code has it: the [try] of the step loop also encloses the
    publish/pull step.  Whatever exception the body of a step raises, in
    the batch or in [emit], [sync] or [set_priority], the handler logs it
    and the loop goes on; the step counters are then unchanged, unless the
    exception is the one of the last call of the body (line 143), which
    comes after their increments.  In particular an [emit] that raises is
    caught, with the counters unchanged.  No exception ever leaves the
    loop, and [train] raises only from what precedes the loop:
    [model.train()], the [sync], the row read and [DataParallel]. *)
Theorem step_recovery_covers_publish_pull
    (e : env) (sync_interval : Z) (fuel : nat) (st : state) (l : locals) :
  (forall err st', train_loop fuel e sync_interval st l <> TrainRaised err st') /\
  (forall st1 l1 err,
     try_body e sync_interval st l = (st1, l1, Some err) ->
     iteration e sync_interval st l =
       (State (graph st1) (S (iterations st1)) (syncs st1) (log st1 ++ [LoggedError err]), l1) /\
     (local_step l < local_epochs ->
      train_loop (S fuel) e sync_interval st l =
        train_loop fuel e sync_interval
          (State (graph st1) (S (iterations st1)) (syncs st1) (log st1 ++ [LoggedError err])) l1) /\
     ((local_step l1 = local_step l /\ global_step l1 = global_step l) \/
      (empty_cache e (iterations st) = Some err /\
       local_step l1 = S (local_step l) /\ global_step l1 = S (global_step l)))) /\
  (forall out row err,
     forward e (iterations st) = inr out ->
     backward e (iterations st) = None ->
     update_row (row_weights l) (weights out) = Ok row ->
     sync_interval <> 0%Z ->
     (Z.of_nat (global_step l + 1) mod sync_interval = 0)%Z ->
     emit e (iterations st) = Some err ->
     exists st1 l1,
       try_body e sync_interval st l = (st1, l1, Some err) /\
       local_step l1 = local_step l /\ global_step l1 = global_step l) /\
  (forall g err st',
     train fuel e sync_interval g st = TrainRaised err st' ->
     model_train e (iterations st) = Some err \/
     sync e (syncs st) = inl err \/
     exists g', sync e (syncs st) = inr g' /\
                (row0 (W g') = Raise err \/
                 data_parallel e (iterations st) = Some err)).
Proof.
  split; [apply train_loop_never_raises|]. split; [|split].
  - intros st1 l1 err Hbody.
    assert (Hit : iteration e sync_interval st l =
              (State (graph st1) (S (iterations st1)) (syncs st1)
                     (log st1 ++ [LoggedError err]), l1)).
    { unfold iteration. now rewrite Hbody. }
    split; [assumption|]. split; [|now apply try_body_raise_steps in Hbody].
    intros Hlt. simpl. destruct (Nat.ltb_spec (local_step l) local_epochs); [|lia].
    now rewrite Hit.
  - intros out row err Hf Hb Hrow HI Hmod He. unfold try_body. rewrite Hf, Hb, Hrow.
    destruct (Z.eqb_spec sync_interval 0) as [?|_]; [contradiction|].
    rewrite Hmod. simpl Z.eqb. cbv iota. unfold publish_pull. simpl. rewrite He.
    eauto.
  - intros g err st' Htrain. unfold train, metagraph_sync in Htrain.
    destruct (model_train e (iterations st)) as [err0|];
      [left; now injection Htrain as -> _|].
    right.
    destruct (sync e (syncs st)) as [err0|g']; [left; now injection Htrain as -> _|].
    right. exists g'. split; [reflexivity|]. simpl in Htrain.
    destruct (row0 (W g')) as [row|err0]; [|left; now injection Htrain as -> _].
    destruct (data_parallel e (iterations st)) as [err0|];
      [right; now injection Htrain as -> _|].
    now apply train_loop_never_raises in Htrain.
Qed.

(** An environment whose first [emit] raises. *)
Definition failing_emit_env : env :=
  Env (fun _ => inr example_output) (fun _ => None)
      (fun k => if Nat.eqb k 0 then Some (UserError "ConnectionError") else None)
      (fun _ => inr example_graph) (fun _ => None)
      (fun _ => None) (fun _ => None) (fun _ => None).

(** C3 as stated fails: with [sync_interval = 1] the first step publishes,
    [emit] raises, and [train] nevertheless returns after ten further
    steps; the log shows the [emit] call followed by the logged error and
    the next step. *)
Lemma emit_failure_does_not_leave_train :
  exists out st,
    train 11 failing_emit_env 1 0 example_state = TrainReturned out 10 st /\
    map kind_of (take 5 (log st)) =
      [KSync; KScalars 0; KEmit; KLoggedError; KScalars 0].
Proof. eexists. eexists. split; vm_compute; reflexivity. Qed.

(** *** Sizes *)

Lemma length_vadd u : forall v, length u = length v -> length (vadd u v) = length u.
Proof.
  induction u as [|x u IH]; intros [|y v] H; simpl in *; try discriminate; auto.
Qed.

Lemma length_vscale c v : length (vscale c v) = length v.
Proof. apply length_map. Qed.

Lemma length_fold_vadd width rows : forall row,
  length row = width -> rectangular width rows ->
  length (fold_left vadd rows row) = width.
Proof.
  induction rows as [|r rows IH]; intros row Hrow Hrows; simpl; [assumption|].
  apply Forall_cons in Hrows as [Hr Hrows]. apply IH; [|assumption].
  rewrite length_vadd; congruence.
Qed.

Lemma length_mean_axis0 width weights :
  weights <> [] -> rectangular width weights -> length (mean_axis0 weights) = width.
Proof.
  intros Hne Hrect. destruct weights as [|row rows]; [contradiction|].
  apply Forall_cons in Hrect as [Hrow Hrows]. unfold mean_axis0.
  rewrite length_vscale. now apply length_fold_vadd.
Qed.

Lemma tensor_add_same_size u v :
  length u = length v -> tensor_add u v = Ok (vadd u v).
Proof. intros H. unfold tensor_add. now rewrite H, Nat.eqb_refl. Qed.

Lemma length_normalize v : length (normalize v) = length v.
Proof. apply length_map. Qed.

(** On tensors of one size the update goes through and keeps the size. *)
Lemma update_row_same_size width row weights :
  length row = width -> weights <> [] -> rectangular width weights ->
  exists row', update_row row weights = Ok row' /\ length row' = width.
Proof.
  intros Hrow Hne Hrect. unfold update_row, moving_average.
  pose proof (length_mean_axis0 width weights Hne Hrect) as Hmean.
  rewrite tensor_add_same_size by (rewrite !length_vscale; congruence).
  eexists. split; [reflexivity|].
  rewrite length_normalize, length_vadd, length_vscale;
    rewrite ?length_vscale; congruence.
Qed.

(** *** Runs in which nothing fails *)

Section Cooperative.
Variable width : nat.
Variable e : env.
Variable sync_interval : Z.
Hypothesis Hcoop : cooperative width e.
Hypothesis Hinterval : sync_interval <> 0%Z.

Lemma try_body_cooperative st l :
  length (row_weights l) = width ->
  exists st' l' evs,
    try_body e sync_interval st l = (st', l', None) /\
    length (row_weights l') = width /\
    local_step l' = S (local_step l) /\
    global_step l' = S (global_step l) /\
    iterations st' = iterations st /\
    log st' = log st ++ evs /\
    map kind_of evs = step_kinds sync_interval (global_step l).
Proof.
  intros Hwidth.
  destruct Hcoop as (Hf & Hb & He & Hs & Hp & Hec & Hmt & Hdp).
  destruct (Hf (iterations st)) as (out & Hout & Hne & Hrect).
  destruct (update_row_same_size width _ _ Hwidth Hne Hrect) as (row & Hrow & Hlen).
  unfold try_body, step_kinds. rewrite Hout, Hb, Hrow, Hec.
  destruct (Z.eqb_spec sync_interval 0) as [?|_]; [contradiction|].
  destruct (Z.eqb_spec (Z.of_nat (global_step l + 1) mod sync_interval) 0) as [Hmod|Hmod].
  - unfold publish_pull, metagraph_sync. simpl. rewrite He.
    destruct (Hs (syncs st)) as (g & row' & col & -> & Hr & Hlen' & Hc).
    simpl. rewrite Hr, Hc. simpl. rewrite Hp.
    do 3 eexists. split; [reflexivity|]. simpl.
    split; [assumption|]. split; [reflexivity|]. split; [reflexivity|].
    split; [reflexivity|]. split; [rewrite <- !app_assoc; reflexivity|reflexivity].
  - do 3 eexists. split; [reflexivity|]. simpl.
    split; [assumption|]. repeat split; auto.
Qed.

Lemma train_loop_cooperative n : forall fuel st l,
  length (row_weights l) = width ->
  local_step l + n = local_epochs -> n <= fuel ->
  exists out st' evs,
    train_loop fuel e sync_interval st l =
      TrainReturned out (global_step l + n) st' /\
    log st' = log st ++ evs /\
    map kind_of evs = flat_map (step_kinds sync_interval) (seq (global_step l) n).
Proof.
  induction n as [|n IH]; intros fuel st l Hwidth Hn Hfuel.
  - exists (last_output l), st, [].
    destruct fuel; simpl;
      (destruct (Nat.ltb_spec (local_step l) local_epochs); [lia|]);
      rewrite Nat.add_0_r, app_nil_r; auto.
  - destruct fuel as [|fuel]; [lia|]. simpl.
    destruct (Nat.ltb_spec (local_step l) local_epochs); [|lia].
    destruct (try_body_cooperative st l Hwidth)
      as (st1 & l1 & evs1 & Hbody & Hw1 & Hl & Hg & _ & Hlog & Hk).
    unfold iteration. rewrite Hbody.
    destruct (IH fuel (State (graph st1) (S (iterations st1)) (syncs st1) (log st1)) l1)
      as (out & st' & evs & Hloop & Hlog' & Hk'); [assumption|lia|lia|].
    exists out, st', (evs1 ++ evs). rewrite Hloop, Hg.
    split; [f_equal; lia|]. simpl in Hlog'. rewrite Hlog', Hlog, <- app_assoc.
    split; [reflexivity|]. rewrite map_app, Hk, Hk', Hg. reflexivity.
Qed.

Lemma train_cooperative fuel g st :
  local_epochs <= fuel ->
  exists out st' evs,
    train fuel e sync_interval g st = TrainReturned out (g + local_epochs) st' /\
    log st' = log st ++ evs /\
    map kind_of evs = train_kinds sync_interval g.
Proof.
  intros Hfuel. destruct Hcoop as (_ & _ & _ & Hs & _ & _ & Hmt & Hdp).
  destruct (Hs (syncs st)) as (g' & row & col & Hsync & Hr & Hlen & _).
  unfold train, metagraph_sync. rewrite Hmt, Hsync. simpl. rewrite Hr, Hdp.
  destruct (train_loop_cooperative local_epochs fuel
              (State g' (iterations st) (S (syncs st)) (log st ++ [Sync]))
              (Locals row 0 g None)) as (out & st' & evs & Hloop & Hlog & Hk);
    [assumption|reflexivity|assumption|].
  exists out, st', (Sync :: evs). simpl in *. rewrite Hloop, Hlog, <- app_assoc.
  split; [reflexivity|]. split; [reflexivity|].
  unfold train_kinds. now rewrite Hk.
Qed.

Lemma main_loop_cooperative fuel epochs : forall g st,
  local_epochs <= fuel ->
  exists out st' evs,
    main_loop epochs fuel e sync_interval g st =
      TrainReturned out (g + epochs * local_epochs) st' /\
    log st' = log st ++ evs /\
    map kind_of evs = main_kinds sync_interval g epochs.
Proof.
  induction epochs as [|epochs IH]; intros g st Hfuel.
  - exists None, st, []. simpl. rewrite Nat.add_0_r, app_nil_r. auto.
  - destruct (train_cooperative fuel g st Hfuel) as (out1 & st1 & evs1 & Ht & Hlog1 & Hk1).
    destruct (IH (g + local_epochs) st1 Hfuel) as (out & st' & evs & Hm & Hlog & Hk).
    cbn [main_loop]. rewrite Ht. destruct epochs as [|epochs].
    + exists out1, st1, evs1. split; [f_equal; lia|]. split; [assumption|].
      simpl. now rewrite app_nil_r.
    + exists out, st', (evs1 ++ evs). rewrite Hm.
      split; [f_equal; lia|]. rewrite Hlog, Hlog1, <- app_assoc.
      split; [reflexivity|]. rewrite map_app, Hk1, Hk. reflexivity.
Qed.

End Cooperative.

(** C6: with [sync_interval = 100], 250 steps from global step 0 (25 calls
    of [train], ten steps each) in which no call fails make exactly two
    publish/pull cycles: the log shows an [emit] in the 100th and in the
    200th step and nowhere else. *)
Theorem two_publish_cycles_in_250_steps
    (width : nat) (e : env) (st : state) (fuel : nat) :
  cooperative width e ->
  local_epochs <= fuel ->
  exists out st' events,
    main_loop 25 fuel e 100 0 st = TrainReturned out 250 st' /\
    log st' = log st ++ events /\
    emit_steps 0 events = [100; 200].
Proof.
  intros Hcoop Hfuel.
  destruct (main_loop_cooperative width e 100 Hcoop ltac:(discriminate) fuel 25 0 st Hfuel)
    as (out & st' & evs & Hm & Hlog & Hk).
  exists out, st', evs. split; [exact Hm|]. split; [exact Hlog|].
  rewrite emit_steps_kinds, Hk. vm_compute. reflexivity.
Qed.

(** The example environment over 25 calls of [train]. *)
Lemma two_publish_cycles_in_250_steps_witness :
  exists out st' events,
    main_loop 25 10 example_env 100 0 example_state = TrainReturned out 250 st' /\
    log st' = events /\
    emit_steps 0 events = [100; 200].
Proof.
  destruct (two_publish_cycles_in_250_steps 2 example_env example_state 10
              example_env_cooperative (le_n 10))
    as (out & st' & events & Hm & Hlog & Hsteps).
  exists out, st', events. split; [exact Hm|]. split; [exact Hlog | exact Hsteps].
Defined.

(** *** The row after a step *)

Local Open Scope Q_scope.























End Gpt2WikiFacts.

(** ** Identity fan-out *)

Module FanoutFacts.
Import Fanout.

Lemma split_no_sep sep s : contains sep s = false -> split sep s = [s].
Proof.
  induction s as [|c s IH]; simpl; [reflexivity|].
  destruct (Ascii.eqb c sep); simpl; [discriminate|].
  intros H. now rewrite (IH H).
Qed.

Lemma split_nonempty sep s : split sep s <> [].
Proof.
  destruct s as [|c s]; simpl; [discriminate|].
  destruct (Ascii.eqb c sep); [discriminate|]. now destruct (split sep s).
Qed.

Lemma assoc_pos_elem (memo : list (loc * loc)) l l' :
  assoc Pos.eqb memo l = Some l' -> (l, l') ∈ memo.
Proof.
  induction memo as [|[k v] memo IH]; simpl; [discriminate|].
  destruct (Pos.eqb_spec k l) as [->|_].
  - intros [= ->]. left.
  - intros H. right. auto.
Qed.

(** *** Allocation and inclusion of stores *)

Lemma alloc_spec (h : heap) o h' l :
  alloc h o = (h', l) -> h !! l = None /\ h' = <[l := o]> h.
Proof.
  unfold alloc. intros [= <- <-]. split; [|reflexivity].
  apply not_elem_of_dom, is_fresh.
Qed.

Lemma well_formed_weaken (h h' : heap) c :
  h ⊆ h' -> well_formed h c -> well_formed h' c.
Proof.
  intros Hsub (secs & Hc & Hsecs). exists secs. split.
  - eapply lookup_weaken; eauto.
  - eapply Forall_impl; [exact Hsecs|]. intros sec [attrs Ha].
    exists attrs. eapply lookup_weaken; eauto.
Qed.

Lemma footprint_defined (h : heap) c l :
  well_formed h c -> l ∈ footprint h c -> is_Some (h !! l).
Proof.
  intros (secs & Hc & Hsecs) Hl. unfold footprint in Hl. rewrite Hc in Hl.
  apply elem_of_cons in Hl as [->|Hl]; [eauto|].
  apply list_elem_of_fmap in Hl as (sec & -> & Hsec).
  rewrite Forall_forall in Hsecs. destruct (Hsecs _ Hsec) as [attrs Ha]. eauto.
Qed.

Lemma footprint_weaken (h h' : heap) c :
  h ⊆ h' -> is_Some (h !! c) -> footprint h' c = footprint h c.
Proof.
  intros Hsub [o Ho]. unfold footprint.
  now rewrite Ho, (lookup_weaken _ _ _ _ Ho Hsub).
Qed.

Lemma view_weaken (h h' : heap) c :
  h ⊆ h' -> well_formed h c -> view h' c = view h c.
Proof.
  intros Hsub (secs & Hc & Hsecs). unfold view.
  rewrite Hc, (lookup_weaken _ _ _ _ Hc Hsub). f_equal.
  apply map_ext_Forall. eapply Forall_impl; [exact Hsecs|].
  intros [name l] [attrs Ha]. simpl in *.
  now rewrite Ha, (lookup_weaken _ _ _ _ Ha Hsub).
Qed.

Lemma get_section_weaken (h h' : heap) c name l :
  h ⊆ h' -> get_section h c name = Ok l -> get_section h' c name = Ok l.
Proof.
  intros Hsub. unfold get_section.
  destruct (h !! c) as [[|secs]|] eqn:Hc; try discriminate.
  now rewrite (lookup_weaken _ _ _ _ Hc Hsub).
Qed.

Lemma get_attr_weaken (h h' : heap) l name v :
  h ⊆ h' -> get_attr h l name = Ok v -> get_attr h' l name = Ok v.
Proof.
  intros Hsub. unfold get_attr.
  destruct (h !! l) as [[attrs|]|] eqn:Hl; try discriminate.
  now rewrite (lookup_weaken _ _ _ _ Hl Hsub).
Qed.

Lemma read_weaken (h h' : heap) c section name v :
  h ⊆ h' -> read h c section name = Ok v -> read h' c section name = Ok v.
Proof.
  intros Hsub. unfold read.
  destruct (get_section h c section) as [l|] eqn:Hs; [|discriminate].
  rewrite (get_section_weaken _ _ _ _ _ Hsub Hs). simpl.
  now apply get_attr_weaken.
Qed.

(** *** Independence from disjoint footprints *)

Lemma view_insert_outside (h : heap) c l o :
  l ∉ footprint h c -> view (<[l := o]> h) c = view h c.
Proof.
  intros Hl. unfold view, footprint in *.
  destruct (decide (l = c)) as [->|Hne].
  { exfalso. apply Hl. destruct (h !! c) as [[|]|]; left. }
  rewrite lookup_insert_ne by assumption.
  destruct (h !! c) as [[|secs]|]; try reflexivity. f_equal.
  apply map_ext_Forall, Forall_forall. intros [name l'] Hin.
  rewrite lookup_insert_ne; [reflexivity|]. intros ->. apply Hl. right.
  apply list_elem_of_fmap. now exists (name, l').
Qed.

Lemma disjoint_independent (h : heap) c1 c2 :
  (forall l, l ∈ footprint h c1 -> l ∉ footprint h c2) -> independent h c1 c2.
Proof. intros Hdisj l o Hl. apply view_insert_outside. auto. Qed.

(** *** The copy *)

(** The sections of a copy, against the store [hb] the copy started from:
    every copied section sits at an address that [hb] does not use and
    holds what the original section holds. *)
Lemma deepcopy_sections_spec (hb : heap) secs : forall (h : heap) (memo : list (loc * loc)),
  hb ⊆ h ->
  (forall l l', assoc Pos.eqb memo l = Some l' ->
     hb !! l' = None /\ exists attrs,
       hb !! l = Some (Namespace attrs) /\ h !! l' = Some (Namespace attrs)) ->
  Forall (fun sec => exists attrs, hb !! sec.2 = Some (Namespace attrs)) secs ->
  exists h' memo' copied,
    deepcopy_sections h memo secs = Ok (h', memo', copied) /\
    h ⊆ h' /\
    Forall2 (fun sec sec' =>
               sec.1 = sec'.1 /\ hb !! sec'.2 = None /\
               exists attrs, hb !! sec.2 = Some (Namespace attrs) /\
                             h' !! sec'.2 = Some (Namespace attrs))
            secs copied.
Proof.
  induction secs as [|[name l] secs IH]; intros h memo Hsub Hmemo Hsecs; simpl.
  - exists h, memo, []. split; [reflexivity|]. split; [reflexivity|constructor].
  - apply Forall_cons in Hsecs as [[attrs Hl] Hsecs]. simpl in Hl.
    destruct (assoc Pos.eqb memo l) as [l'|] eqn:Hhit.
    + destruct (Hmemo _ _ Hhit) as (Hnew & attrs' & Hl' & Hcopy).
      destruct (IH h memo Hsub Hmemo Hsecs) as (h' & memo' & copied & -> & Hsub' & Hall).
      exists h', memo', ((name, l') :: copied). split; [reflexivity|].
      split; [assumption|]. constructor; [|assumption]. simpl.
      split; [reflexivity|]. split; [assumption|]. exists attrs'.
      split; [assumption|]. eapply lookup_weaken; eauto.
    + rewrite (lookup_weaken _ _ _ _ Hl Hsub).
      unfold alloc. simpl. set (l' := fresh (dom h)).
      assert (Hfresh : h !! l' = None) by apply not_elem_of_dom, is_fresh.
      assert (Hnew : hb !! l' = None) by (eapply lookup_weaken_None; eauto).
      destruct (IH (<[l' := Namespace attrs]> h) ((l, l') :: memo))
        as (h' & memo' & copied & -> & Hsub' & Hall).
      * now apply insert_subseteq_r.
      * intros x y. simpl. destruct (Pos.eqb_spec l x) as [<-|Hne].
        -- intros [= <-]. split; [assumption|]. exists attrs.
           split; [assumption|]. apply lookup_insert_eq.
        -- intros Hxy. destruct (Hmemo _ _ Hxy) as (Hy & attrs' & Hx & Hcopy).
           split; [assumption|]. exists attrs'. split; [assumption|].
           rewrite lookup_insert_ne; [assumption|]. intros ->. congruence.
      * assumption.
      * exists h', memo', ((name, l') :: copied). split; [reflexivity|]. split.
        -- etrans; [apply insert_subseteq, Hfresh|exact Hsub'].
        -- constructor; [|assumption]. simpl. split; [reflexivity|].
           split; [assumption|]. exists attrs. split; [assumption|].
           eapply lookup_weaken; [apply lookup_insert_eq|exact Hsub'].
Qed.

(** [copy.deepcopy(config)] of a well-formed configuration: a well-formed
    configuration made of addresses the store did not use, with the same
    section names and the same section contents; the store is extended. *)
Lemma deepcopy_spec (h : heap) c secs :
  h !! c = Some (Config secs) ->
  Forall (fun sec => exists attrs, h !! sec.2 = Some (Namespace attrs)) secs ->
  exists h' c' copied,
    deepcopy h c = Ok (h', c') /\
    h ⊆ h' /\
    h !! c' = None /\
    h' !! c' = Some (Config copied) /\
    Forall2 (fun sec sec' =>
               sec.1 = sec'.1 /\ h !! sec'.2 = None /\
               exists attrs, h !! sec.2 = Some (Namespace attrs) /\
                             h' !! sec'.2 = Some (Namespace attrs))
            secs copied.
Proof.
  intros Hc Hsecs. unfold deepcopy. rewrite Hc.
  destruct (deepcopy_sections_spec h secs h []) as (h1 & memo & copied & -> & Hsub & Hall);
    [reflexivity|intros ? ? [=]|assumption|].
  simpl. destruct (alloc h1 (Config copied)) as [h' c'] eqn:Halloc.
  apply alloc_spec in Halloc as [Hfresh ->].
  exists (<[c' := Config copied]> h1), c', copied. split; [reflexivity|].
  split; [etrans; [exact Hsub|now apply insert_subseteq]|].
  split; [eapply lookup_weaken_None; eauto|].
  split; [apply lookup_insert_eq|].
  eapply Forall2_impl; [exact Hall|]. intros sec sec' (Hn & Hnew & attrs & Ho & Hcopy).
  split; [assumption|]. split; [assumption|]. exists attrs. split; [assumption|].
  rewrite lookup_insert_ne; [assumption|]. intros ->. congruence.
Qed.

Lemma assoc_copied (Q : loc -> loc -> Prop) secs copied name l :
  Forall2 (fun sec sec' : string * loc => sec.1 = sec'.1 /\ Q sec.2 sec'.2) secs copied ->
  assoc String.eqb secs name = Some l ->
  exists l', assoc String.eqb copied name = Some l' /\ Q l l'.
Proof.
  induction 1 as [|[n x] [n' x'] secs copied [Hn HQ] Hall IH]; simpl; [discriminate|].
  simpl in Hn. subst n'. destruct (String.eqb n name).
  - intros [= ->]. eauto.
  - assumption.
Qed.

Lemma assoc_string_elem (secs : list (string * loc)) name l :
  assoc String.eqb secs name = Some l -> (name, l) ∈ secs.
Proof.
  induction secs as [|[n x] secs IH]; simpl; [discriminate|].
  destruct (String.eqb_spec n name) as [->|_].
  - intros [= ->]. left.
  - intros H. right. auto.
Qed.

Lemma Forall2_right {A B} (R : A -> B -> Prop) (Q : B -> Prop) l k :
  Forall2 R l k -> (forall x y, R x y -> Q y) -> Forall Q k.
Proof. induction 1; intros HQ; constructor; eauto. Qed.

Lemma get_section_inv (h : heap) c name l :
  get_section h c name = Ok l ->
  exists secs, h !! c = Some (Config secs) /\ assoc String.eqb secs name = Some l.
Proof.
  unfold get_section. destruct (h !! c) as [[|secs]|]; try discriminate.
  destruct (assoc String.eqb secs name) eqn:Ha; [|discriminate].
  intros [= ->]. eauto.
Qed.

(** *** Assignments to a configuration of one's own *)

(** [c] is a well-formed configuration of [h] made of addresses that [hb]
    does not use. *)
Definition owned (hb h : heap) (c : loc) : Prop :=
  well_formed h c /\ forall l, l ∈ footprint h c -> hb !! l = None.

Lemma write_owned (hb h : heap) c section name v l :
  hb ⊆ h -> owned hb h c -> get_section h c section = Ok l ->
  exists h',
    write h c section name v = Ok h' /\
    hb ⊆ h' /\
    owned hb h' c /\
    (forall section', get_section h' c section' = get_section h c section') /\
    read h' c section name = Ok v /\
    (forall section' name' v', name' <> name ->
       read h c section' name' = Ok v' -> read h' c section' name' = Ok v').
Proof.
  intros Hsub [(secs & Hc & Hsecs) Hfoot] Hget.
  destruct (get_section_inv _ _ _ _ Hget) as (secs' & Hc' & Hassoc).
  rewrite Hc in Hc'. injection Hc' as <-.
  pose proof (assoc_string_elem _ _ _ Hassoc) as Hin.
  rewrite Forall_forall in Hsecs. destruct (Hsecs _ Hin) as [attrs Hl]. simpl in Hl.
  assert (Hlc : l <> c) by (intros ->; congruence).
  assert (Hnew : hb !! l = None).
  { apply Hfoot. unfold footprint. rewrite Hc. right.
    apply list_elem_of_fmap. now exists (section, l). }
  set (h' := <[l := Namespace (<[name := v]> attrs)]> h).
  assert (Hc2 : h' !! c = Some (Config secs)).
  { unfold h'. now rewrite lookup_insert_ne. }
  assert (Hsec : forall section', get_section h' c section' = get_section h c section').
  { intros section'. unfold get_section. now rewrite Hc2, Hc. }
  exists h'. split.
  { unfold write. rewrite Hget. simpl. unfold set_attr. now rewrite Hl. }
  split; [now apply insert_subseteq_r|]. split; [split|].
  - exists secs. split; [assumption|]. apply Forall_forall. intros sec Hsec'.
    destruct (decide (sec.2 = l)) as [->|Hne].
    + eexists. apply lookup_insert_eq.
    + destruct (Hsecs _ Hsec') as [a Ha]. exists a. unfold h'.
      now rewrite lookup_insert_ne.
  - intros x Hx. apply Hfoot. unfold footprint in *. now rewrite Hc2 in Hx; rewrite Hc.
  - split; [assumption|]. split.
    + unfold read. rewrite Hsec, Hget. simpl. unfold get_attr, h'.
      now rewrite lookup_insert_eq, lookup_insert_eq.
    + intros section' name' v' Hname. unfold read. rewrite Hsec.
      destruct (get_section h c section') as [l'|]; [|discriminate]. simpl.
      unfold get_attr, h'. destruct (decide (l = l')) as [<-|Hne].
      * rewrite lookup_insert_eq, Hl. now rewrite lookup_insert_ne.
      * now rewrite lookup_insert_ne.
Qed.

(** The copy made for one identity: the store is extended, the copy is a
    configuration of its own, and it carries the identity. *)
Lemma subconfig_for_spec (h : heap) config coldkey hotkey port lw la :
  well_formed h config ->
  get_section h config "wallet" = Ok lw ->
  get_section h config "axon" = Ok la ->
  exists h4 sub,
    subconfig_for h config coldkey hotkey port = Ok (h4, sub) /\
    h ⊆ h4 /\
    owned h h4 sub /\
    read h4 sub "wallet" "name" = Ok (SStr coldkey) /\
    read h4 sub "wallet" "hotkey" = Ok (SStr hotkey) /\
    read h4 sub "axon" "port" = Ok (SInt port).
Proof.
  intros (secs & Hc & Hsecs) Hw Ha.
  destruct (deepcopy_spec h config secs Hc Hsecs)
    as (h1 & sub & copied & Hcopy & Hsub1 & Hfresh & Hsubc & Hall).
  destruct (get_section_inv _ _ _ _ Hw) as (secs' & Hc' & Hwa).
  rewrite Hc in Hc'. injection Hc' as <-.
  destruct (get_section_inv _ _ _ _ Ha) as (secs' & Hc' & Haa).
  rewrite Hc in Hc'. injection Hc' as <-.
  set (Q := fun x y : loc => h !! y = None /\ exists attrs,
              h !! x = Some (Namespace attrs) /\ h1 !! y = Some (Namespace attrs)).
  destruct (assoc_copied Q _ _ _ _ Hall Hwa) as (lw' & Hwa' & _).
  destruct (assoc_copied Q _ _ _ _ Hall Haa) as (la' & Haa' & _).
  assert (Hown1 : owned h h1 sub).
  { split.
    - exists copied. split; [assumption|].
      eapply Forall2_right; [exact Hall|]. intros x y (_ & _ & attrs & _ & Hy). eauto.
    - intros l Hl. unfold footprint in Hl. rewrite Hsubc in Hl.
      apply elem_of_cons in Hl as [->|Hl]; [assumption|].
      apply list_elem_of_fmap in Hl as (sec' & -> & Hsec').
      assert (Hnone : Forall (fun y : string * loc => h !! y.2 = None) copied).
      { eapply Forall2_right; [exact Hall|]. now intros x y (_ & Hy & _). }
      rewrite Forall_forall in Hnone. auto. }
  assert (Hw1 : get_section h1 sub "wallet" = Ok lw').
  { unfold get_section. now rewrite Hsubc, Hwa'. }
  assert (Ha1 : get_section h1 sub "axon" = Ok la').
  { unfold get_section. now rewrite Hsubc, Haa'. }
  destruct (write_owned h h1 sub "wallet" "name" (SStr coldkey) lw' Hsub1 Hown1 Hw1)
    as (h2 & Hwr1 & Hsub2 & Hown2 & Hsec2 & Hname2 & _).
  destruct (write_owned h h2 sub "wallet" "hotkey" (SStr hotkey) lw' Hsub2 Hown2)
    as (h3 & Hwr2 & Hsub3 & Hown3 & Hsec3 & Hhot3 & Hkeep3); [now rewrite Hsec2|].
  destruct (write_owned h h3 sub "axon" "port" (SInt port) la' Hsub3 Hown3)
    as (h4 & Hwr3 & Hsub4 & Hown4 & Hsec4 & Hport4 & Hkeep4); [now rewrite Hsec3, Hsec2|].
  exists h4, sub. unfold subconfig_for. rewrite Hcopy. simpl.
  rewrite Hwr1. simpl. rewrite Hwr2. simpl. rewrite Hwr3. simpl.
  split; [reflexivity|]. split; [assumption|]. split; [assumption|].
  split; [|split; [|assumption]].
  - apply Hkeep4; [discriminate|]. apply Hkeep3; [discriminate|]. assumption.
  - apply Hkeep4; [discriminate|]. assumption.
Qed.

(** *** The loop over the identities *)

Section Loop.
Variable hb : heap.
Variable config lw la : loc.
Hypothesis Hwf : well_formed hb config.
Hypothesis Hwallet : get_section hb config "wallet" = Ok lw.
Hypothesis Haxon : get_section hb config "axon" = Ok la.

(** What holds of the store and of the sub-configurations made so far. *)
Record fan_inv (h : heap) (subs : list loc) (entries : list (string * string)) : Prop := {
  fan_sub : hb ⊆ h;
  fan_owned : Forall (owned hb h) subs;
  fan_carries : Forall2 (carries h) subs entries;
  fan_nodup : NoDup subs;
  fan_disjoint : forall s1 s2 l, s1 ∈ subs -> s2 ∈ subs -> s1 <> s2 ->
                 l ∈ footprint h s1 -> l ∉ footprint h s2;
}.

Lemma owned_weaken (h h' : heap) s :
  hb ⊆ h -> h ⊆ h' -> owned hb h s -> owned hb h' s /\ footprint h' s = footprint h s.
Proof.
  intros Hb Hsub [Hw Hf].
  assert (Hfoot : footprint h' s = footprint h s).
  { apply footprint_weaken; [assumption|]. destruct Hw as (secs & Hs & _). eauto. }
  split; [|assumption]. split; [now apply (well_formed_weaken h)|].
  intros l. rewrite Hfoot. apply Hf.
Qed.

Lemma carries_weaken (h h' : heap) s entry :
  h ⊆ h' -> carries h s entry -> carries h' s entry.
Proof.
  intros Hsub (c & t & p & Hk & Hp & H1 & H2 & H3).
  exists c, t, p. eauto 10 using read_weaken.
Qed.

Lemma fan_inv_step (h h4 : heap) subs entries sub key port_text :
  fan_inv h subs entries ->
  h ⊆ h4 -> owned h h4 sub -> carries h4 sub (key, port_text) ->
  fan_inv h4 (subs ++ [sub]) (entries ++ [(key, port_text)]).
Proof.
  intros [Hb Hown Hcar Hnd Hdis] Hsub [Hwsub Hfsub] Hcsub.
  assert (Hold : forall s, s ∈ subs ->
            owned hb h4 s /\ footprint h4 s = footprint h s /\ is_Some (h !! s)).
  { intros s Hs. rewrite Forall_forall in Hown.
    destruct (owned_weaken h h4 s Hb Hsub (Hown _ Hs)) as [H1 H2].
    split; [assumption|]. split; [assumption|].
    destruct (Hown _ Hs) as [(secs & Hsecs & _) _]. eauto. }
  assert (Hsubnew : h !! sub = None).
  { apply Hfsub. unfold footprint. destruct (h4 !! sub) as [[|]|]; left. }
  assert (Hnotin : sub ∉ subs).
  { intros Hin. destruct (Hold _ Hin) as (_ & _ & [o Ho]). congruence. }
  constructor.
  - now transitivity h.
  - apply Forall_app. split.
    + apply Forall_forall. intros s Hs. now apply Hold.
    + constructor; [|constructor]. split; [assumption|].
      intros l Hl. eapply lookup_weaken_None; [apply Hfsub, Hl|assumption].
  - apply Forall2_app; [|constructor; [assumption|constructor]].
    eapply Forall2_impl; [exact Hcar|]. intros s entry. now apply carries_weaken.
  - apply NoDup_app. split; [assumption|]. split; [|apply NoDup_singleton].
    intros s Hs Hs'. apply list_elem_of_singleton in Hs' as ->. contradiction.
  - intros s1 s2 l H1 H2 Hne Hl1 Hl2.
    apply elem_of_app in H1 as [H1|H1]; apply elem_of_app in H2 as [H2|H2].
    + destruct (Hold _ H1) as (_ & Hf1 & _). destruct (Hold _ H2) as (_ & Hf2 & _).
      rewrite Hf1 in Hl1. rewrite Hf2 in Hl2. exact (Hdis _ _ _ H1 H2 Hne Hl1 Hl2).
    + apply list_elem_of_singleton in H2 as ->.
      destruct (Hold _ H1) as (_ & Hf1 & _). rewrite Hf1 in Hl1.
      rewrite Forall_forall in Hown. destruct (Hown _ H1) as [Hw1 _].
      destruct (footprint_defined _ _ _ Hw1 Hl1) as [o Ho].
      specialize (Hfsub _ Hl2). congruence.
    + apply list_elem_of_singleton in H1 as ->.
      destruct (Hold _ H2) as (_ & Hf2 & _). rewrite Hf2 in Hl2.
      rewrite Forall_forall in Hown. destruct (Hown _ H2) as [Hw2 _].
      destruct (footprint_defined _ _ _ Hw2 Hl2) as [o Ho].
      specialize (Hfsub _ Hl1). congruence.
    + apply list_elem_of_singleton in H1 as ->.
      apply list_elem_of_singleton in H2 as ->. contradiction.
Qed.

Lemma subconfig_for_later (h : heap) coldkey hotkey port :
  hb ⊆ h ->
  exists h4 sub,
    subconfig_for h config coldkey hotkey port = Ok (h4, sub) /\
    h ⊆ h4 /\ owned h h4 sub /\
    read h4 sub "wallet" "name" = Ok (SStr coldkey) /\
    read h4 sub "wallet" "hotkey" = Ok (SStr hotkey) /\
    read h4 sub "axon" "port" = Ok (SInt port).
Proof.
  intros Hsub. apply (subconfig_for_spec h config coldkey hotkey port lw la).
  - now apply (well_formed_weaken hb).
  - now apply (get_section_weaken hb).
  - now apply (get_section_weaken hb).
Qed.

(** Well-formed entries in equal number: the loop makes one
    sub-configuration for each, in order. *)
Lemma fanout_loop_spec keys : forall ports (h : heap) subs entries,
  fan_inv h subs entries ->
  Forall (fun key => exists coldkey hotkey, key_entry key coldkey hotkey) keys ->
  Forall (fun port_text => is_Some (py_int port_text)) ports ->
  length keys = length ports ->
  exists h' subs',
    fanout_loop h config keys ports subs = Ok (h', subs') /\
    fan_inv h' subs' (entries ++ zip keys ports).
Proof.
  induction keys as [|key keys IH]; intros [|port_text ports] h subs entries
    Hinv Hkeys Hports Hlen; simpl in Hlen; try discriminate.
  - exists h, subs. simpl. rewrite app_nil_r. auto.
  - apply Forall_cons in Hkeys as [(coldkey & hotkey & Hkey) Hkeys].
    apply Forall_cons in Hports as [[port Hport] Hports].
    simpl. rewrite Hport. unfold key_entry in Hkey. rewrite Hkey.
    destruct (subconfig_for_later h coldkey hotkey port (fan_sub _ _ _ Hinv))
      as (h4 & sub & -> & Hsub & Hown & Hn & Hh & Hp).
    destruct (IH ports h4 (subs ++ [sub]) (entries ++ [(key, port_text)]))
      as (h' & subs' & Hloop & Hinv'); [|assumption|assumption|lia|].
    + apply (fan_inv_step h); try assumption.
      exists coldkey, hotkey, port. simpl. auto.
    + exists h', subs'. split; [assumption|]. now rewrite <- app_assoc in Hinv'.
Qed.

(** A key without [:] at a position both lists reach: the loop raises
    [ValueError]. *)
Lemma fanout_loop_malformed i : forall keys ports (h : heap) subs key,
  hb ⊆ h ->
  keys !! i = Some key -> i < length ports -> contains ":" key = false ->
  fanout_loop h config keys ports subs = Raise ValueError.
Proof.
  induction i as [|i IH]; intros [|key0 keys] [|port_text ports] h subs key
    Hsub Hkey Hlen Hbad; simpl in *; try discriminate; try lia.
  - injection Hkey as ->. destruct (py_int port_text); [|reflexivity].
    now rewrite (split_no_sep _ _ Hbad).
  - destruct (py_int port_text) as [port|]; [|reflexivity].
    destruct (split ":" key0) as [|coldkey [|hotkey [|]]]; try reflexivity.
    destruct (subconfig_for_later h coldkey hotkey port Hsub)
      as (h4 & sub & -> & Hsub4 & _).
    apply (IH keys ports h4 _ key); [now transitivity h|assumption|lia|assumption].
Qed.

End Loop.

Lemma read_inv (h : heap) c section name v :
  read h c section name = Ok v -> exists l, get_section h c section = Ok l.
Proof.
  unfold read. destruct (get_section h c section) as [l|]; [eauto|discriminate].
Qed.

Lemma fan_inv_start (h : heap) : fan_inv h h [] [].
Proof.
  constructor; try constructor; try reflexivity.
  intros s1 s2 l H. inversion H.
Qed.

(** C8: from a shared configuration whose [shared_keys] holds N well-formed
    [cold:hot] entries and whose [shared_ports] holds N integers, the
    fan-out returns N configurations in input order, the i-th carrying the
    i-th coldkey, hotkey and port; the original looks as before, and the
    configurations are deep copies: overwriting any object one of them is
    made of changes neither the look of another one nor that of the
    original, and overwriting the original changes none of them. *)
Theorem fanout_makes_independent_copies
    (h : heap) (config : loc) (keys_text ports_text : string) :
  well_formed h config ->
  read h config "wallet" "shared_keys" = Ok (SStr keys_text) ->
  read h config "axon" "shared_ports" = Ok (SStr ports_text) ->
  Forall (fun key => exists coldkey hotkey, key_entry key coldkey hotkey)
         (split "," keys_text) ->
  Forall (fun port_text => is_Some (py_int port_text)) (split "," ports_text) ->
  length (split "," ports_text) = length (split "," keys_text) ->
  exists h' subs,
    create_shared_subconfigs h config = Ok (h', subs) /\
    length subs = length (split "," keys_text) /\
    Forall2 (carries h') subs (zip (split "," keys_text) (split "," ports_text)) /\
    view h' config = view h config /\
    (forall sub, sub ∈ subs ->
       independent h' sub config /\ independent h' config sub) /\
    (forall i j si sj, i <> j -> subs !! i = Some si -> subs !! j = Some sj ->
       independent h' si sj).
Proof.
  intros Hwf Hkeys Hports Hentries Hints Hlen.
  destruct (read_inv _ _ _ _ _ Hkeys) as [lw Hw].
  destruct (read_inv _ _ _ _ _ Hports) as [la Ha].
  destruct (fanout_loop_spec h config lw la Hwf Hw Ha (split "," keys_text)
              (split "," ports_text) h [] [] (fan_inv_start h) Hentries Hints)
    as (h' & subs & Hloop & [Hsub Hown Hcar Hnd Hdis]); [now symmetry|].
  simpl in Hcar. rewrite Forall_forall in Hown.
  exists h', subs. split.
  { unfold create_shared_subconfigs. rewrite Hkeys. simpl. rewrite Hports. exact Hloop. }
  split.
  { rewrite (Forall2_length _ _ _ Hcar), length_zip. lia. }
  split; [assumption|]. split; [now apply view_weaken|].
  assert (Hfoot : footprint h' config = footprint h config).
  { apply footprint_weaken; [assumption|]. destruct Hwf as (secs & Hc & _). eauto. }
  split.
  - intros sub Hin. destruct (Hown _ Hin) as [Hwsub Hfsub].
    split; apply disjoint_independent; intros l Hl Hl'.
    + rewrite Hfoot in Hl'.
      destruct (footprint_defined _ _ _ Hwf Hl') as [o Ho].
      specialize (Hfsub _ Hl). congruence.
    + rewrite Hfoot in Hl.
      destruct (footprint_defined _ _ _ Hwf Hl) as [o Ho].
      specialize (Hfsub _ Hl'). congruence.
  - intros i j si sj Hij Hi Hj. apply disjoint_independent. intros l Hl.
    apply (Hdis si sj); eauto using list_elem_of_lookup_2.
    intros ->. apply Hij. eapply NoDup_lookup; eauto.
Qed.

(** A shared configuration with two identities. *)
Definition example_wallet (shared_keys : string) : gmap string scalar :=
  <["name" := SStr "default"]> (<["hotkey" := SStr "default"]>
    (<["shared_keys" := SStr shared_keys]> ∅)).

Definition example_axon (shared_ports : string) : gmap string scalar :=
  <["port" := SInt 8091]> (<["shared_ports" := SStr shared_ports]> ∅).

Definition example_heap (shared_keys shared_ports : string) : heap :=
  <[1%positive := Config [("wallet", 2%positive); ("axon", 3%positive)]]>
    (<[2%positive := Namespace (example_wallet shared_keys)]>
       (<[3%positive := Namespace (example_axon shared_ports)]> ∅)).

Lemma example_heap_well_formed keys ports :
  well_formed (example_heap keys ports) 1%positive.
Proof.
  exists [("wallet", 2%positive); ("axon", 3%positive)]. split; [reflexivity|].
  repeat constructor; simpl; eexists; reflexivity.
Qed.

(** What [carries] says of a pair whose texts are known. *)
Lemma carries_known (h : heap) sub key port_text coldkey hotkey port :
  split ":" key = [coldkey; hotkey] ->
  py_int port_text = Some port ->
  carries h sub (key, port_text) ->
  read h sub "wallet" "name" = Ok (SStr coldkey) /\
  read h sub "wallet" "hotkey" = Ok (SStr hotkey) /\
  read h sub "axon" "port" = Ok (SInt port).
Proof.
  intros Hkey Hport (c & k & p & Hk & Hp & Hn & Hh & Hpo).
  unfold key_entry in Hk. simpl in Hk, Hp.
  rewrite Hkey in Hk. injection Hk as <- <-.
  rewrite Hport in Hp. injection Hp as <-. auto.
Qed.

(** Two identities, [A:a] on port 9000 and [B:b] on port 9001: the first
    copy is for [A], [a] and port 9000, the second for [B], [b] and port
    9001, and the original still has its own port. *)
Lemma fanout_makes_independent_copies_witness :
  exists h' sub1 sub2,
    create_shared_subconfigs (example_heap "A:a,B:b" "9000,9001") 1%positive
      = Ok (h', [sub1; sub2]) /\
    read h' sub1 "wallet" "name" = Ok (SStr "A") /\
    read h' sub1 "wallet" "hotkey" = Ok (SStr "a") /\
    read h' sub1 "axon" "port" = Ok (SInt 9000) /\
    read h' sub2 "wallet" "name" = Ok (SStr "B") /\
    read h' sub2 "wallet" "hotkey" = Ok (SStr "b") /\
    read h' sub2 "axon" "port" = Ok (SInt 9001) /\
    view h' 1%positive = view (example_heap "A:a,B:b" "9000,9001") 1%positive.
Proof.
  destruct (fanout_makes_independent_copies
              (example_heap "A:a,B:b" "9000,9001") 1%positive "A:a,B:b" "9000,9001"
              (example_heap_well_formed _ _) eq_refl eq_refl
              ltac:(repeat constructor; do 2 eexists; reflexivity)
              ltac:(repeat constructor; eexists; reflexivity)
              eq_refl)
    as (h' & subs & Hc & Hlen & Hcar & Hview & _).
  destruct subs as [|sub1 [|sub2 [|sub3 subs]]]; try discriminate Hlen.
  change (zip (split "," "A:a,B:b") (split "," "9000,9001"))
    with [("A:a", "9000"); ("B:b", "9001")] in Hcar.
  apply Forall2_cons_1 in Hcar as [H1 Hcar].
  apply Forall2_cons_1 in Hcar as [H2 _].
  destruct (carries_known h' sub1 "A:a" "9000" "A" "a" 9000%Z eq_refl eq_refl H1) as (Hn1 & Hh1 & Hp1).
  destruct (carries_known h' sub2 "B:b" "9001" "B" "b" 9001%Z eq_refl eq_refl H2) as (Hn2 & Hh2 & Hp2).
  exists h', sub1, sub2.
  split; [exact Hc|]. split; [exact Hn1|]. split; [exact Hh1|].
  split; [exact Hp1|]. split; [exact Hn2|]. split; [exact Hh2|].
  split; [exact Hp2 | exact Hview].
Defined.

(** C2, as the code has it: when the key at a position that both lists
    reach has no [:], the fan-out raises [ValueError], [neuron.__init__]
    raises it too, and [neuron(config).run()] ends with it before any
    process is started.  (With lists of equal length this is any key without
    [:].) *)
Theorem malformed_key_fails_before_spawn
    (h : heap) (config : loc) (keys_text ports_text : string)
    (i : nat) (key : string) (rounds : nat) (w : Supervisor.world) :
  well_formed h config ->
  read h config "wallet" "shared_keys" = Ok (SStr keys_text) ->
  read h config "axon" "shared_ports" = Ok (SStr ports_text) ->
  split "," keys_text !! i = Some key ->
  i < length (split "," ports_text) ->
  contains ":" key = false ->
  create_shared_subconfigs h config = Raise ValueError /\
  Neuron.init h config = Raise ValueError /\
  Neuron.launch rounds w h config = ([], Raise ValueError).
Proof.
  intros Hwf Hkeys Hports Hkey Hi Hbad.
  destruct (read_inv _ _ _ _ _ Hkeys) as [lw Hw].
  destruct (read_inv _ _ _ _ _ Hports) as [la Ha].
  assert (Hfail : create_shared_subconfigs h config = Raise ValueError).
  { unfold create_shared_subconfigs. rewrite Hkeys. simpl. rewrite Hports.
    now apply (fanout_loop_malformed h config lw la Hwf Hw Ha i _ _ h [] key). }
  split; [assumption|].
  unfold Neuron.launch, Neuron.init. rewrite Hfail. auto.
Qed.

(** The second of two keys has no [:]. *)
Lemma malformed_key_fails_before_spawn_witness :
  Neuron.launch 3 (Supervisor.world_of []) (example_heap "A:a,Bb" "9000,9001") 1%positive
    = ([], Raise ValueError).
Proof.
  exact (proj2 (proj2 (malformed_key_fails_before_spawn
           (example_heap "A:a,Bb" "9000,9001") 1%positive "A:a,Bb" "9000,9001"
           1 "Bb" 3 (Supervisor.world_of [])
           (example_heap_well_formed _ _) eq_refl eq_refl eq_refl
           (le_n 2) eq_refl))).
Defined.

(** C2 as stated fails: with two keys and one port the lengths differ, yet
    the fan-out raises nothing; it returns the one configuration the
    shorter list allows. *)
Lemma unequal_lengths_are_truncated :
  exists h' subs,
    create_shared_subconfigs (example_heap "A:a,B:b" "9000") 1%positive
      = Ok (h', subs) /\
    length subs = 1 /\
    length (split "," "A:a,B:b") = 2 /\
    length (split "," "9000") = 1.
Proof. do 2 eexists. repeat split; vm_compute; reflexivity. Qed.

End FanoutFacts.

(** * Further properties *)

(** ** The [Process] wrapper and the supervision loop *)

Module SupervisorMore.
Import Worker Supervisor Lifetimes WorkerFacts SupervisorFacts.

(** X1: once the child has sent its one object, every read of
    [p.exception] returns that object, however often the property is read,
    and the pipe is drained once. *)
Theorem exception_reads_are_cached (snap : snapshot) (p : handle) (m : msg) (n : nat) :
  drop (received p) (sent snap) = [Readable m] ->
  read_exception (S n) snap p =
    (Handle (S (received p)) m, replicate (S n) (Ok m)).
Proof. apply reads_are_cached. Qed.

(** Three reads after a child that raised. *)
Lemma exception_reads_are_cached_witness :
  snd (read_exception 3
         (Snapshot (Exited 0) [Readable (Some (UserError "RuntimeError", "trace"))])
         new_handle)
    = replicate 3 (Ok (Some (UserError "RuntimeError", "trace"))).
Proof.
  rewrite (exception_reads_are_cached
             (Snapshot (Exited 0) [Readable (Some (UserError "RuntimeError", "trace"))])
             new_handle (Some (UserError "RuntimeError", "trace")) 2 eq_refl).
  reflexivity.
Defined.

(** *** The loop in any world *)

Lemma keys_dict_del_perm {V} (d : list (nat * V)) n :
  n ∈ keys d -> keys d ≡ₚ n :: keys (dict_del d n).
Proof.
  induction d as [|[k v] d IH]; simpl; intros Hin; [inversion Hin|].
  destruct (Nat.eqb_spec k n) as [->|Hne]; [reflexivity|]. simpl.
  apply elem_of_cons in Hin as [Hin|Hin]; [congruence|].
  rewrite (IH Hin) at 1. apply Permutation_swap.
Qed.

Lemma accounted_nodup n_workers s : accounted n_workers s -> NoDup (keys (processes s)).
Proof.
  intros (Hperm & _).
  assert (Hnd : NoDup (keys (processes s) ++ joined s))
    by (rewrite Hperm; apply NoDup_seq).
  now apply NoDup_app in Hnd as [Hnd _].
Qed.

Lemma poll_any_world w n_workers n s :
  accounted n_workers s -> n ∈ keys (processes s) ->
  match poll w n s with
  | inl s' =>
      accounted n_workers s' /\ clock s' = S (clock s) /\
      (forall k, k ∈ keys (processes s') -> k ∈ keys (processes s)) /\
      (forall k, k ∈ keys (processes s) -> k <> n -> k ∈ keys (processes s'))
  | inr (ex, s') => closed_books n_workers ex s'
  end.
Proof.
  intros (Hperm & Hst & Hterm) Hin.
  destruct (dict_get_keys _ _ Hin) as [[p c] Hget].
  assert (Hk : forall v, keys (dict_set (processes s) n v) = keys (processes s))
    by (intros v; now apply keys_dict_set).
  assert (Hkk : forall v v', keys (dict_set (dict_set (processes s) n v) n v')
                             = keys (processes s)).
  { intros v v'. rewrite keys_dict_set; [apply Hk|]. rewrite Hk. assumption. }
  unfold poll. rewrite Hget. simpl.
  destruct (is_alive (w (S (clock s)) n)) eqn:Halive.
  { split; [split; auto|]. split; [reflexivity|]. split; auto. }
  destruct (dead_has_status _ Halive) as [code ->].
  destruct (exception (w (S (clock s)) n) p) as [p1 [[pair|]|err]].
  - destruct (exception (w (S (clock s)) n) p1) as [p2 [[[error trace]|]|err]]; simpl.
    + unfold closed_books. simpl. rewrite Hkk, Hterm. eauto 10.
    + unfold closed_books. simpl. rewrite Hkk. auto.
    + unfold closed_books. simpl. rewrite Hkk. auto.
  - destruct (Z.eqb code 0); simpl.
    + rewrite dict_del_set. split; [split; [|auto]|].
      * simpl. rewrite <- Hperm, (keys_dict_del_perm (processes s) n Hin) at 1.
        rewrite app_assoc. rewrite (Permutation_app_comm _ [n]). reflexivity.
      * split; [reflexivity|].
        assert (Hnd : NoDup (keys (processes s)))
          by (apply (accounted_nodup n_workers); split; auto).
        split; intros k Hk'.
        -- now apply keys_dict_del in Hk'.
        -- intros Hne. now apply keys_dict_del.
    + split; [unfold accounted; simpl; rewrite Hk; auto|].
      split; [reflexivity|]. rewrite Hk. split; auto.
  - unfold closed_books. simpl. rewrite Hk. auto.
Qed.

Lemma for_loop_any_world w n_workers ns : forall s,
  accounted n_workers s -> NoDup ns ->
  (forall n, n ∈ ns -> n ∈ keys (processes s)) ->
  match for_loop w ns s with
  | inl s' => accounted n_workers s' /\ clock s' = clock s + length ns
  | inr (ex, s') => closed_books n_workers ex s'
  end.
Proof.
  induction ns as [|n ns IH]; intros s Hacc Hnd Hsub; simpl.
  - split; [assumption|lia].
  - apply NoDup_cons in Hnd as [Hn Hnd].
    assert (Hin : n ∈ keys (processes s)) by (apply Hsub; left).
    pose proof (poll_any_world w n_workers n s Hacc Hin) as Hpoll.
    destruct (poll w n s) as [s1|[ex s1]]; [|exact Hpoll].
    destruct Hpoll as (Hacc1 & Hclock & _ & Hkeep).
    specialize (IH s1 Hacc1 Hnd).
    destruct (for_loop w ns s1) as [s'|[ex s']].
    + destruct IH as [Hacc' Hclock'].
      * intros k Hk. apply Hkeep; [apply Hsub; now right|]. intros ->. contradiction.
      * split; [assumption|]. simpl. lia.
    + apply IH. intros k Hk. apply Hkeep; [apply Hsub; now right|].
      intros ->. contradiction.
Qed.

Lemma while_loop_any_world w n_workers : forall rounds s,
  accounted n_workers s ->
  match while_loop rounds w s with
  | Returned s' => accounted n_workers s' /\ processes s' = []
  | Polling s' => accounted n_workers s' /\ processes s' <> [] /\
                  clock s + rounds <= clock s'
  | Raised ex s' => closed_books n_workers ex s'
  end.
Proof.
  induction rounds as [|rounds IH]; intros s Hacc; simpl.
  - destruct (processes s) eqn:Hp; [auto|].
    split; [assumption|]. split; [congruence|lia].
  - destruct (processes s) as [|x d] eqn:Hp; [auto|]. rewrite <- Hp.
    pose proof (for_loop_any_world w n_workers (keys (processes s)) s Hacc
                  (accounted_nodup _ _ Hacc) (fun n H => H)) as Hfor.
    destruct (for_loop w (keys (processes s)) s) as [s1|[ex s1]]; [|exact Hfor].
    destruct Hfor as [Hacc1 Hclock]. specialize (IH s1 Hacc1).
    destruct (while_loop rounds w s1) as [s'|ex s'|s']; try exact IH.
    destruct IH as (H1 & H2 & H3). split; [assumption|]. split; [assumption|].
    rewrite Hp in Hclock. simpl in Hclock. lia.
Qed.

Lemma accounted_spawn (cfgs : list loc) :
  accounted (length cfgs) (spawn 0 cfgs idle).
Proof.
  destruct (spawned cfgs) as (H1 & H2 & _ & H4 & H5 & _).
  unfold accounted. rewrite H1, H2, H4, H5, keys_spawned, app_nil_r.
  auto.
Qed.

(** X2: in every world of started children, whatever they send and however
    they end, the supervision loop keeps its books.  As long as it returns
    or is still polling, no [terminate] was called and every started worker
    is on the dict or was joined, never both; it returns only with an empty
    dict, every worker joined once.  When an exception leaves the loop,
    [terminate] was called either on exactly the workers then on the dict,
    and the exception is then the [ChildProcessError] of the loop, or on
    none of them: the exception of a [recv()] or of the unpacking
    assignment leaves every worker running. *)
Theorem supervision_keeps_its_books (rounds : nat) (w : world) (cfgs : list loc) :
  match supervise rounds w cfgs with
  | Returned s =>
      processes s = [] /\ joined s ≡ₚ seq 0 (length cfgs) /\
      started s = seq 0 (length cfgs) /\ terminated s = []
  | Polling s =>
      processes s <> [] /\ rounds <= clock s /\
      keys (processes s) ++ joined s ≡ₚ seq 0 (length cfgs) /\
      started s = seq 0 (length cfgs) /\ terminated s = []
  | Raised ex s =>
      keys (processes s) ++ joined s ≡ₚ seq 0 (length cfgs) /\
      started s = seq 0 (length cfgs) /\
      (((exists trace, ex = ChildProcessError trace) /\
        terminated s = keys (processes s)) \/
       terminated s = [])
  end.
Proof.
  unfold supervise.
  pose proof (while_loop_any_world w (length cfgs) rounds _ (accounted_spawn cfgs)) as H.
  destruct (while_loop rounds w _) as [s|ex s|s].
  - destruct H as [(Hp & Hs & Ht) Hnil]. rewrite Hnil in Hp. simpl in Hp. auto.
  - exact H.
  - destruct H as ((Hp & Hs & Ht) & Hne & Hclock).
    destruct (spawned cfgs) as (_ & _ & Hc & _).
    rewrite Hc in Hclock. simpl in Hclock. auto.
Qed.

(** *** Workers that all exit cleanly *)

Section Clean.
Variable fates : list fate.
Local Abbreviation W := (world_of fates).

Lemma poll_clean s n f :
  inv fates s -> n ∈ keys (processes s) ->
  fates !! n = Some f -> clean_exit f = true -> ended_by (S (clock s)) f ->
  poll W n s =
    inl (Sup (S (clock s)) (dict_del (processes s) n) (started s)
             (terminated s) (joined s ++ [n]) (polled s ++ [(S (clock s), n)])).
Proof.
  intros Hinv Hin Hf Hclean Hend.
  destruct (dict_get_keys _ _ Hin) as [[p c] Hget].
  destruct (inv_handles _ _ Hinv _ _ _ (dict_get_elem _ _ _ Hget)) as [-> _].
  assert (Hw : W (S (clock s)) n = snapshot_of f (S (clock s))).
  { unfold world_of. now rewrite Hf. }
  destruct f as [|t [|e tb d|[status| |name]]|t code]; simpl in Hclean, Hend;
    try discriminate; try contradiction.
  - apply (poll_reap _ _ _ _ _ (Handle 1 None) Hget);
      rewrite Hw, snapshot_after by assumption; reflexivity.
  - apply Z.eqb_eq in Hclean.
    apply (poll_reap _ _ _ _ _ new_handle Hget);
      rewrite Hw, snapshot_after by assumption; simpl; now rewrite ?Hclean.
  - apply Z.eqb_eq in Hclean as ->.
    apply (poll_reap _ _ _ _ _ new_handle Hget); rewrite Hw; simpl;
      (destruct (Nat.ltb_spec (S (clock s)) t); [lia|reflexivity]).
Qed.

Lemma ended_by_later t t' f : t <= t' -> ended_by t f -> ended_by t' f.
Proof. destruct f; simpl; auto; lia. Qed.

Lemma for_loop_reaps ns : forall s,
  inv fates s -> NoDup ns ->
  (forall n, n ∈ ns -> n ∈ keys (processes s)) ->
  (forall n, n ∈ ns -> exists f,
     fates !! n = Some f /\ clean_exit f = true /\ ended_by (S (clock s)) f) ->
  exists s', for_loop W ns s = inl s' /\
    forall k, k ∈ keys (processes s') -> k ∈ keys (processes s) /\ k ∉ ns.
Proof.
  induction ns as [|n ns IH]; intros s Hinv Hnd Hsub Hclean; simpl.
  - exists s. split; [reflexivity|]. intros k Hk. split; [assumption|]. inversion 1.
  - apply NoDup_cons in Hnd as [Hn Hnd].
    assert (Hin : n ∈ keys (processes s)) by (apply Hsub; left).
    destruct (Hclean n) as (f & Hf & Hc & He); [left|].
    rewrite (poll_clean s n f Hinv Hin Hf Hc He).
    destruct (IH _ (inv_reap fates s n f Hinv Hin Hf Hc) Hnd) as (s' & -> & Hkeys).
    + intros m Hm. simpl. apply keys_dict_del; [apply Hinv|].
      split; [apply Hsub; now right|]. intros ->. contradiction.
    + intros m Hm. destruct (Hclean m) as (g & Hg & Hgc & Hge); [now right|].
      exists g. split; [assumption|]. split; [assumption|].
      simpl. eapply ended_by_later; [|exact Hge]. lia.
    + exists s'. split; [reflexivity|]. intros k Hk.
      destruct (Hkeys k Hk) as [Hk1 Hk2]. simpl in Hk1.
      apply keys_dict_del in Hk1 as [Hk1 Hne]; [|apply Hinv].
      split; [assumption|]. intros Hk3.
      apply elem_of_cons in Hk3 as [?|?]; contradiction.
Qed.

Lemma while_loop_returns T :
  Forall (fun f => clean_exit f = true /\ ended_by T f) fates ->
  forall rounds s,
  inv fates s -> terminated s = [] ->
  0 < rounds -> T <= clock s + rounds ->
  exists s', while_loop rounds W s = Returned s' /\ processes s' = [].
Proof.
  intros Hall.
  assert (Hfate : forall s n, inv fates s -> n ∈ keys (processes s) ->
            exists f, fates !! n = Some f /\ clean_exit f = true /\ ended_by T f).
  { intros s n Hinv Hn. destruct (dict_get_keys _ _ Hn) as [[p c] Hget].
    destruct (inv_handles _ _ Hinv _ _ _ (dict_get_elem _ _ _ Hget)) as [_ Hlt].
    destruct (lookup_lt_is_Some_2 fates n Hlt) as [f Hf].
    rewrite Forall_forall in Hall.
    destruct (Hall f) as [Hc He]; [eapply list_elem_of_lookup_2; eauto|]. eauto. }
  induction rounds as [|rounds IH]; intros s Hinv Hterm Hpos HT; [lia|].
  simpl. destruct (processes s) as [|x d] eqn:Hp; [exists s; auto|]. rewrite <- Hp.
  destruct (le_lt_dec T (S (clock s))) as [Hnow|Hlater].
  - destruct (for_loop_reaps (keys (processes s)) s Hinv (inv_nodup _ _ Hinv)
                (fun n H => H)) as (s' & -> & Hkeys).
    + intros n Hn. destruct (Hfate s n Hinv Hn) as (f & Hf & Hc & He).
      exists f. eauto using ended_by_later.
    + assert (Hnil : processes s' = []).
      { destruct (processes s') as [|[k v] d'] eqn:Hp'; [reflexivity|].
        destruct (Hkeys k) as [H1 H2]; [left|]. contradiction. }
      exists s'. split; [|assumption]. destruct rounds; simpl; now rewrite Hnil.
  - pose proof (for_loop_fate fates (keys (processes s)) s Hinv Hterm
                  (inv_nodup _ _ Hinv) (fun n H => H)) as Hfor.
    destruct (for_loop W (keys (processes s)) s) as [s'|[ex s']].
    + destruct Hfor as (H1 & H2 & H3 & _).
      rewrite Hp in H3. simpl in H3. apply IH; auto; lia.
    + rewrite Forall_forall in Hall.
      destruct Hfor as [[(j & t & e & tb & earlier & Hj & _)|(j & t & e & tb & Hj & _)] _];
        destruct (Hall _ (list_elem_of_lookup_2 _ _ _ Hj)) as [Hc _]; discriminate.
Qed.

End Clean.

(** X3: when every worker exits cleanly (its target returns, or the process
    ends with status 0) by instant [T], the supervision loop returns within
    [max T 1] rounds: the dict is empty, every worker was joined exactly
    once and none was terminated. *)
Theorem clean_workers_are_joined_and_the_loop_returns
    (fates : list fate) (cfgs : list loc) (T rounds : nat) :
  length cfgs = length fates ->
  Forall (fun f => clean_exit f = true /\ ended_by T f) fates ->
  0 < rounds -> T <= rounds ->
  exists s,
    supervise rounds (world_of fates) cfgs = Returned s /\
    processes s = [] /\
    joined s ≡ₚ seq 0 (length fates) /\
    terminated s = [].
Proof.
  intros Hlen Hall Hpos HT. unfold supervise.
  destruct (spawned cfgs) as (_ & _ & Hclock & Hterm & _).
  destruct (while_loop_returns fates T Hall rounds (spawn 0 cfgs idle))
    as (s & Hw & Hnil);
    [now apply inv_spawn|assumption|assumption|rewrite Hclock; simpl; lia|].
  exists s. split; [assumption|]. split; [assumption|].
  pose proof (while_loop_any_world (world_of fates) (length cfgs) rounds _
                (accounted_spawn cfgs)) as Hany.
  rewrite Hw in Hany. destruct Hany as [(Hp & _ & Ht) _].
  rewrite Hnil in Hp. simpl in Hp. rewrite <- Hlen. auto.
Qed.

(** Three workers: two targets return, one process ends with status 0. *)
Lemma clean_workers_are_joined_and_the_loop_returns_witness :
  exists s,
    supervise 4 (world_of [Finishes 2 BodyReturns; Dies 4 0; Finishes 1 BodyReturns])
      [2%positive; 3%positive; 4%positive] = Returned s /\
    processes s = [].
Proof.
  destruct (clean_workers_are_joined_and_the_loop_returns
              [Finishes 2 BodyReturns; Dies 4 0; Finishes 1 BodyReturns]
              [2%positive; 3%positive; 4%positive] 4 4 eq_refl
              ltac:(repeat constructor; simpl; lia)
              ltac:(lia) (le_n 4))
    as (s & Hs & Hnil & _).
  exists s. split; [exact Hs | exact Hnil].
Defined.

End SupervisorMore.

(** ** Identity fan-out *)

Module FanoutExtra.
Import Fanout FanoutMore FanoutFacts.

(** *** Copies of distinct sections are distinct *)

Definition injective (memo : list (loc * loc)) : Prop :=
  forall l1 l2 l', assoc Pos.eqb memo l1 = Some l' ->
                   assoc Pos.eqb memo l2 = Some l' -> l1 = l2.

Lemma deepcopy_sections_memo secs : forall (h : heap) (memo : list (loc * loc)) h' memo' copied,
  (forall l l', assoc Pos.eqb memo l = Some l' -> is_Some (h !! l')) ->
  injective memo ->
  deepcopy_sections h memo secs = Ok (h', memo', copied) ->
  (forall l l', assoc Pos.eqb memo' l = Some l' -> is_Some (h' !! l')) /\
  injective memo' /\
  (forall l l', assoc Pos.eqb memo l = Some l' -> assoc Pos.eqb memo' l = Some l') /\
  Forall2 (fun sec sec' : string * loc =>
             sec.1 = sec'.1 /\ assoc Pos.eqb memo' sec.2 = Some sec'.2)
          secs copied.
Proof.
  induction secs as [|[name l] secs IH]; intros h memo h' memo' copied Hdef Hinj; simpl.
  - intros [= <- <- <-]. split; [assumption|]. split; [assumption|].
    split; [auto|constructor].
  - destruct (assoc Pos.eqb memo l) as [l'|] eqn:Hhit.
    + destruct (deepcopy_sections h memo secs) as [[[h1 memo1] copied1]|] eqn:Hrec;
        [|discriminate].
      simpl. intros [= <- <- <-].
      destruct (IH _ _ _ _ _ Hdef Hinj Hrec) as (H1 & H2 & H3 & H4).
      split; [assumption|]. split; [assumption|]. split; [assumption|].
      constructor; [|assumption]. simpl. auto.
    + destruct (h !! l) as [[attrs|]|] eqn:Hl; try discriminate.
      unfold alloc. simpl. set (l' := fresh (dom h)).
      assert (Hfresh : h !! l' = None) by apply not_elem_of_dom, is_fresh.
      destruct (deepcopy_sections (<[l' := Namespace attrs]> h) ((l, l') :: memo) secs)
        as [[[h1 memo1] copied1]|] eqn:Hrec; [|discriminate].
      simpl. intros [= <- <- <-].
      assert (Hdef' : forall x y, assoc Pos.eqb ((l, l') :: memo) x = Some y ->
                                  is_Some (<[l' := Namespace attrs]> h !! y)).
      { intros x y. simpl. destruct (Pos.eqb_spec l x) as [<-|Hne].
        - intros [= <-]. rewrite lookup_insert_eq. eauto.
        - intros Hxy. destruct (Hdef _ _ Hxy) as [o Ho].
          rewrite lookup_insert_ne; [eauto|]. intros ->. congruence. }
      assert (Hinj' : injective ((l, l') :: memo)).
      { intros x1 x2 y. simpl.
        destruct (Pos.eqb_spec l x1) as [<-|Hne1];
          destruct (Pos.eqb_spec l x2) as [<-|Hne2]; try reflexivity.
        - intros [= <-] Hx2. destruct (Hdef _ _ Hx2) as [o Ho]. congruence.
        - intros Hx1 [= <-]. destruct (Hdef _ _ Hx1) as [o Ho]. congruence.
        - apply Hinj. }
      destruct (IH _ _ _ _ _ Hdef' Hinj' Hrec) as (H1 & H2 & H3 & H4).
      split; [assumption|]. split; [assumption|]. split.
      * intros x y Hxy. apply H3. simpl.
        destruct (Pos.eqb_spec l x) as [<-|Hne]; [congruence|assumption].
      * constructor; [|assumption]. simpl. split; [reflexivity|].
        apply H3. simpl. now rewrite Pos.eqb_refl.
Qed.

(** Two sections of the copy are one object only if they were one object
    in the original. *)
Lemma deepcopy_apart (h : heap) c secs h' c' copied n1 n2 l1 l2 l' :
  h !! c = Some (Config secs) ->
  deepcopy h c = Ok (h', c') ->
  h' !! c' = Some (Config copied) ->
  assoc String.eqb secs n1 = Some l1 ->
  assoc String.eqb secs n2 = Some l2 ->
  assoc String.eqb copied n1 = Some l' ->
  assoc String.eqb copied n2 = Some l' ->
  l1 = l2.
Proof.
  intros Hc Hcopy Hc' H1 H2 H1' H2'. unfold deepcopy in Hcopy. rewrite Hc in Hcopy.
  destruct (deepcopy_sections h [] secs) as [[[h1 memo] copied1]|] eqn:Hsecs;
    [|discriminate].
  simpl in Hcopy. unfold alloc in Hcopy. injection Hcopy as <- <-.
  rewrite lookup_insert_eq in Hc'. injection Hc' as <-.
  assert (Hdef : forall x y, assoc Pos.eqb [] x = Some y -> is_Some (h !! y))
    by (intros x y; discriminate).
  assert (Hinj0 : injective []) by (intros x1 x2 y; discriminate).
  destruct (deepcopy_sections_memo _ _ _ _ _ _ Hdef Hinj0 Hsecs)
    as (_ & Hinj & _ & Hall).
  set (Q := fun x y : loc => assoc Pos.eqb memo x = Some y).
  destruct (assoc_copied Q _ _ _ _ Hall H1) as (y1 & Hy1 & HQ1).
  destruct (assoc_copied Q _ _ _ _ Hall H2) as (y2 & Hy2 & HQ2).
  rewrite H1' in Hy1. injection Hy1 as <-.
  rewrite H2' in Hy2. injection Hy2 as <-.
  exact (Hinj _ _ _ HQ1 HQ2).
Qed.

(** An assignment [config.<section>.<name> = v] leaves every attribute as
    it is, other than [name] of the section object assigned to. *)
Lemma write_frame (h : heap) c section name v h' l :
  get_section h c section = Ok l ->
  write h c section name v = Ok h' ->
  (forall section', get_section h' c section' = get_section h c section') /\
  forall section' name',
    (get_section h c section' = Ok l -> name' <> name) ->
    read h' c section' name' = read h c section' name'.
Proof.
  intros Hget Hwrite. unfold write in Hwrite. rewrite Hget in Hwrite.
  simpl in Hwrite. unfold set_attr in Hwrite.
  destruct (h !! l) as [[attrs|]|] eqn:Hl; try discriminate.
  injection Hwrite as <-.
  destruct (get_section_inv _ _ _ _ Hget) as (secs & Hc & _).
  assert (Hlc : l <> c) by (intros ->; congruence).
  assert (Hsec : forall section',
            get_section (<[l := Namespace (<[name := v]> attrs)]> h) c section'
            = get_section h c section').
  { intros section'. unfold get_section. now rewrite lookup_insert_ne. }
  split; [exact Hsec|].
  intros section' name' Hname. unfold read. rewrite Hsec.
  destruct (get_section h c section') as [l'|]; [|reflexivity]. simpl.
  unfold get_attr. destruct (decide (l = l')) as [<-|Hne].
  - rewrite lookup_insert_eq, Hl. now rewrite lookup_insert_ne by (apply not_eq_sym; auto).
  - now rewrite lookup_insert_ne.
Qed.

(** The copy made for one identity keeps every other setting. *)
Lemma subconfig_for_keeps (h : heap) config coldkey hotkey port lw la :
  well_formed h config ->
  get_section h config "wallet" = Ok lw ->
  get_section h config "axon" = Ok la ->
  forall h4 sub,
    subconfig_for h config coldkey hotkey port = Ok (h4, sub) ->
    keeps h config h4 sub.
Proof.
  intros (secs & Hc & Hsecs) Hw Ha h4 sub Hmake.
  destruct (deepcopy_spec h config secs Hc Hsecs)
    as (h1 & sub' & copied & Hcopy & Hsub1 & Hfresh & Hsubc & Hall).
  destruct (get_section_inv _ _ _ _ Hw) as (secs' & Hc' & Hwa).
  rewrite Hc in Hc'. injection Hc' as <-.
  destruct (get_section_inv _ _ _ _ Ha) as (secs' & Hc' & Haa).
  rewrite Hc in Hc'. injection Hc' as <-.
  set (Q := fun x y : loc => h !! y = None /\ exists attrs,
              h !! x = Some (Namespace attrs) /\ h1 !! y = Some (Namespace attrs)).
  destruct (assoc_copied Q _ _ _ _ Hall Hwa) as (lw' & Hwa' & _).
  destruct (assoc_copied Q _ _ _ _ Hall Haa) as (la' & Haa' & _).
  assert (Hw1 : get_section h1 sub' "wallet" = Ok lw').
  { unfold get_section. now rewrite Hsubc, Hwa'. }
  assert (Ha1 : get_section h1 sub' "axon" = Ok la').
  { unfold get_section. now rewrite Hsubc, Haa'. }
  unfold subconfig_for in Hmake. rewrite Hcopy in Hmake. simpl in Hmake.
  destruct (write h1 sub' "wallet" "name" (SStr coldkey)) as [h2|] eqn:Hwr1;
    [|discriminate]. simpl in Hmake.
  destruct (write h2 sub' "wallet" "hotkey" (SStr hotkey)) as [h3|] eqn:Hwr2;
    [|discriminate]. simpl in Hmake.
  destruct (write h3 sub' "axon" "port" (SInt port)) as [h4'|] eqn:Hwr3;
    [|discriminate]. simpl in Hmake. injection Hmake as <- <-.
  destruct (write_frame _ _ _ _ _ _ _ Hw1 Hwr1) as [Hsec2 Hkeep2].
  destruct (write_frame h2 sub' "wallet" "hotkey" (SStr hotkey) h3 lw') as [Hsec3 Hkeep3];
    [now rewrite Hsec2|assumption|].
  destruct (write_frame h3 sub' "axon" "port" (SInt port) h4' la') as [Hsec4 Hkeep4];
    [now rewrite Hsec3, Hsec2|assumption|].
  intros section name v Hwallet Haxon Hread.
  assert (Hsection : exists l, assoc String.eqb secs section = Some l).
  { unfold read, get_section in Hread. rewrite Hc in Hread.
    destruct (assoc String.eqb secs section); [eauto|discriminate]. }
  destruct Hsection as [l Hl].
  assert (Hget : get_section h config section = Ok l).
  { unfold get_section. now rewrite Hc, Hl. }
  destruct (assoc_copied Q _ _ _ _ Hall Hl) as (l' & Hl' & _ & attrs & Hattrs & Hattrs').
  assert (Hget1 : get_section h1 sub' section = Ok l').
  { unfold get_section. now rewrite Hsubc, Hl'. }
  assert (Hread1 : read h1 sub' section name = Ok v).
  { unfold read in *. rewrite Hget in Hread. rewrite Hget1. simpl in *.
    unfold get_attr in *. now rewrite Hattrs in Hread; rewrite Hattrs'. }
  assert (Hwal : l' = lw' -> name <> "name" /\ name <> "hotkey").
  { intros ->. apply Hwallet. rewrite Hget, Hw. f_equal.
    exact (deepcopy_apart h config secs h1 sub' copied section "wallet" l lw lw'
             Hc Hcopy Hsubc Hl Hwa Hl' Hwa'). }
  assert (Hax : l' = la' -> name <> "port").
  { intros ->. apply Haxon. rewrite Hget, Ha. f_equal.
    exact (deepcopy_apart h config secs h1 sub' copied section "axon" l la la'
             Hc Hcopy Hsubc Hl Haa Hl' Haa'). }
  rewrite Hkeep4, Hkeep3, Hkeep2; [assumption| | |].
  - rewrite Hget1. intros [= Heq]. now apply Hwal.
  - rewrite Hsec2, Hget1. intros [= Heq]. now apply Hwal.
  - rewrite Hsec3, Hsec2, Hget1. intros [= Heq]. now apply Hax.
Qed.

Lemma keeps_weaken (h0 h h' : heap) config sub :
  h ⊆ h' -> keeps h0 config h sub -> keeps h0 config h' sub.
Proof.
  intros Hsub Hk section name v H1 H2 Hread.
  eapply read_weaken; [exact Hsub|]. now apply Hk.
Qed.

Section Loop.
Variable hb : heap.
Variable config lw la : loc.
Hypothesis Hwf : well_formed hb config.
Hypothesis Hwallet : get_section hb config "wallet" = Ok lw.
Hypothesis Haxon : get_section hb config "axon" = Ok la.

(** The pairs that [zip] forms are well formed: the loop makes one
    sub-configuration for each of them, whatever follows in the longer
    list. *)
Lemma fanout_loop_zip keys : forall ports (h : heap) subs entries,
  fan_inv hb h subs entries ->
  Forall (keeps hb config h) subs ->
  Forall (fun entry : string * string =>
            (exists coldkey hotkey, key_entry entry.1 coldkey hotkey) /\
            is_Some (py_int entry.2)) (zip keys ports) ->
  exists h' subs',
    fanout_loop h config keys ports subs = Ok (h', subs') /\
    fan_inv hb h' subs' (entries ++ zip keys ports) /\
    Forall (keeps hb config h') subs'.
Proof.
  induction keys as [|key keys IH]; intros [|port_text ports] h subs entries
    Hinv Hkeep Hentries; simpl;
    try (exists h, subs; rewrite app_nil_r; now auto).
  simpl in Hentries.
  apply Forall_cons in Hentries as [[(coldkey & hotkey & Hkey) [port Hport]] Hentries].
  simpl in Hkey, Hport.
  rewrite Hport. unfold key_entry in Hkey. rewrite Hkey.
  pose proof (fan_sub _ _ _ _ Hinv) as Hsub.
  destruct (subconfig_for_later hb config lw la Hwf Hwallet Haxon h coldkey hotkey port Hsub)
    as (h4 & sub & Hmake & Hsub4 & Hown & Hn & Hh & Hp).
  rewrite Hmake.
  destruct (IH ports h4 (subs ++ [sub]) (entries ++ [(key, port_text)]))
    as (h' & subs' & Hloop & Hinv' & Hkeep'); [| |assumption|].
  - apply (fan_inv_step hb h); try assumption.
    exists coldkey, hotkey, port. simpl. auto.
  - apply Forall_app. split.
    + eapply Forall_impl; [exact Hkeep|]. intros s. now apply keeps_weaken.
    + constructor; [|constructor].
      intros section name v H1 H2 Hread.
      assert (Hsame : forall s, get_section h config s = get_section hb config s).
      { intros s. destruct Hwf as (secs & Hc & _). unfold get_section.
        now rewrite Hc, (lookup_weaken _ _ _ _ Hc Hsub). }
      apply (subconfig_for_keeps h config coldkey hotkey port lw la);
        [now apply (well_formed_weaken hb)|now apply (get_section_weaken hb)
        |now apply (get_section_weaken hb)|assumption
        |now rewrite !Hsame|now rewrite !Hsame|now apply (read_weaken hb)].
  - exists h', subs'. split; [assumption|]. split; [|assumption].
    now rewrite <- app_assoc in Hinv'.
Qed.

(** An entry that cannot be read, at a position both lists reach: the loop
    raises [ValueError]. *)
Lemma fanout_loop_bad_entry i : forall keys ports (h : heap) subs key port_text,
  hb ⊆ h ->
  keys !! i = Some key -> ports !! i = Some port_text ->
  py_int port_text = None \/ (forall coldkey hotkey, ~ key_entry key coldkey hotkey) ->
  fanout_loop h config keys ports subs = Raise ValueError.
Proof.
  induction i as [|i IH]; intros [|key0 keys] [|port0 ports] h subs key port_text
    Hsub Hkey Hport Hbad; simpl in *; try discriminate.
  - injection Hkey as ->. injection Hport as ->.
    destruct (py_int port_text) as [port|] eqn:Hint; [|reflexivity].
    destruct Hbad as [?|Hbad]; [discriminate|].
    destruct (split ":" key) as [|coldkey [|hotkey [|]]] eqn:Hsplit; try reflexivity.
    now destruct (Hbad coldkey hotkey).
  - destruct (py_int port0) as [port|]; [|reflexivity].
    destruct (split ":" key0) as [|coldkey [|hotkey [|]]]; try reflexivity.
    destruct (subconfig_for_later hb config lw la Hwf Hwallet Haxon h coldkey hotkey port Hsub)
      as (h4 & sub & -> & Hsub4 & _).
    apply (IH keys ports h4 _ key port_text); auto. now transitivity h.
Qed.

End Loop.

(** The fan-out on readable pairs, with all that is known of its result. *)
Lemma create_on_readable_pairs (h : heap) config keys_text ports_text :
  well_formed h config ->
  read h config "wallet" "shared_keys" = Ok (SStr keys_text) ->
  read h config "axon" "shared_ports" = Ok (SStr ports_text) ->
  Forall readable (zip (split "," keys_text) (split "," ports_text)) ->
  exists h' subs,
    create_shared_subconfigs h config = Ok (h', subs) /\
    fan_inv h h' subs (zip (split "," keys_text) (split "," ports_text)) /\
    Forall (keeps h config h') subs.
Proof.
  intros Hwf Hkeys Hports Hentries.
  destruct (read_inv _ _ _ _ _ Hkeys) as [lw Hw].
  destruct (read_inv _ _ _ _ _ Hports) as [la Ha].
  destruct (fanout_loop_zip h config lw la Hwf Hw Ha (split "," keys_text)
              (split "," ports_text) h [] [] (fan_inv_start h) (Forall_nil_2 _) Hentries)
    as (h' & subs & Hloop & Hinv & Hkeep).
  exists h', subs. split; [|auto].
  unfold create_shared_subconfigs. rewrite Hkeys. simpl. now rewrite Hports.
Qed.

(** X4: the fan-out makes as many configurations as the shorter of the two
    lists has entries.  When the pairs that [zip] forms are readable (a key
    [cold:hot], an integer port), it returns one configuration for each
    pair, in order, carrying that pair's identity; what the longer list
    holds beyond is never looked at. *)
Theorem fanout_stops_at_the_shorter_list
    (h : heap) (config : loc) (keys_text ports_text : string) :
  well_formed h config ->
  read h config "wallet" "shared_keys" = Ok (SStr keys_text) ->
  read h config "axon" "shared_ports" = Ok (SStr ports_text) ->
  Forall readable (zip (split "," keys_text) (split "," ports_text)) ->
  exists h' subs,
    create_shared_subconfigs h config = Ok (h', subs) /\
    length subs = length (split "," keys_text) `min` length (split "," ports_text) /\
    Forall2 (carries h') subs (zip (split "," keys_text) (split "," ports_text)).
Proof.
  intros Hwf Hkeys Hports Hentries.
  destruct (create_on_readable_pairs h config keys_text ports_text Hwf Hkeys Hports Hentries)
    as (h' & subs & Hcreate & [_ _ Hcar _ _] & _).
  exists h', subs. split; [assumption|]. split; [|assumption].
  now rewrite (Forall2_length _ _ _ Hcar), length_zip.
Qed.

(** Three keys, the last of them malformed, and two ports: two copies, for
    ports 9000 and 9001. *)
Lemma fanout_stops_at_the_shorter_list_witness :
  exists h' sub1 sub2,
    create_shared_subconfigs (example_heap "A:a,B:b,oops" "9000,9001") 1%positive
      = Ok (h', [sub1; sub2]) /\
    read h' sub1 "wallet" "name" = Ok (SStr "A") /\
    read h' sub1 "axon" "port" = Ok (SInt 9000) /\
    read h' sub2 "wallet" "name" = Ok (SStr "B") /\
    read h' sub2 "axon" "port" = Ok (SInt 9001).
Proof.
  destruct (fanout_stops_at_the_shorter_list
              (example_heap "A:a,B:b,oops" "9000,9001") 1%positive
              "A:a,B:b,oops" "9000,9001"
              (example_heap_well_formed _ _) eq_refl eq_refl
              ltac:(repeat constructor; simpl; try (do 2 eexists; reflexivity);
                    eexists; reflexivity))
    as (h' & subs & Hc & Hlen & Hcar).
  destruct subs as [|sub1 [|sub2 [|sub3 subs]]]; try discriminate Hlen.
  change (zip (split "," "A:a,B:b,oops") (split "," "9000,9001"))
    with [("A:a", "9000"); ("B:b", "9001")] in Hcar.
  apply Forall2_cons_1 in Hcar as [H1 Hcar].
  apply Forall2_cons_1 in Hcar as [H2 _].
  destruct (carries_known h' sub1 "A:a" "9000" "A" "a" 9000%Z eq_refl eq_refl H1) as (Hn1 & _ & Hp1).
  destruct (carries_known h' sub2 "B:b" "9001" "B" "b" 9001%Z eq_refl eq_refl H2) as (Hn2 & _ & Hp2).
  exists h', sub1, sub2.
  split; [exact Hc|]. split; [exact Hn1|]. split; [exact Hp1|].
  split; [exact Hn2 | exact Hp2].
Defined.

(** X5: every configuration the fan-out returns keeps all the settings of
    the shared configuration other than the three the loop assigns,
    [wallet.name], [wallet.hotkey] and [axon.port]: what could be read from
    any section of the original reads the same from the copy, unless it is
    [name] or [hotkey] of the section object that [wallet] names or [port]
    of the one that [axon] names.  So [neuron.name], for one, is kept. *)
Theorem fanout_keeps_other_settings
    (h : heap) (config : loc) (keys_text ports_text : string) :
  well_formed h config ->
  read h config "wallet" "shared_keys" = Ok (SStr keys_text) ->
  read h config "axon" "shared_ports" = Ok (SStr ports_text) ->
  Forall readable (zip (split "," keys_text) (split "," ports_text)) ->
  exists h' subs,
    create_shared_subconfigs h config = Ok (h', subs) /\
    forall sub section name v,
      sub ∈ subs ->
      (get_section h config section = get_section h config "wallet" ->
       name <> "name" /\ name <> "hotkey") ->
      (get_section h config section = get_section h config "axon" ->
       name <> "port") ->
      read h config section name = Ok v -> read h' sub section name = Ok v.
Proof.
  intros Hwf Hkeys Hports Hentries.
  destruct (create_on_readable_pairs h config keys_text ports_text Hwf Hkeys Hports Hentries)
    as (h' & subs & Hcreate & _ & Hkeep).
  exists h', subs. split; [assumption|].
  intros sub section name v Hin. rewrite Forall_forall in Hkeep. now apply Hkeep.
Qed.

(** A configuration with a [neuron] section beside [wallet] and [axon]. *)
Definition named_heap (shared_keys shared_ports : string) : heap :=
  <[1%positive := Config [("wallet", 2%positive); ("axon", 3%positive);
                          ("neuron", 4%positive)]]>
    (<[2%positive := Namespace (example_wallet shared_keys)]>
       (<[3%positive := Namespace (example_axon shared_ports)]>
          (<[4%positive := Namespace (<["name" := SStr "core_server"]> ∅)]> ∅))).

Lemma named_heap_well_formed keys ports :
  well_formed (named_heap keys ports) 1%positive.
Proof.
  exists [("wallet", 2%positive); ("axon", 3%positive); ("neuron", 4%positive)].
  split; [reflexivity|].
  repeat constructor; simpl; eexists; reflexivity.
Qed.

(** Both copies still hold the [neuron.name] of the original. *)
Lemma fanout_keeps_other_settings_witness :
  exists h' subs,
    create_shared_subconfigs (named_heap "A:a,B:b" "9000,9001") 1%positive
      = Ok (h', subs) /\
    forall sub, sub ∈ subs ->
      read h' sub "neuron" "name" = Ok (SStr "core_server").
Proof.
  destruct (fanout_keeps_other_settings
              (named_heap "A:a,B:b" "9000,9001") 1%positive "A:a,B:b" "9000,9001"
              (named_heap_well_formed _ _)
              ltac:(vm_compute; reflexivity) ltac:(vm_compute; reflexivity)
              ltac:(repeat constructor; simpl; try (do 2 eexists; reflexivity);
                    eexists; vm_compute; reflexivity))
    as (h' & subs & Hc & Hkeep).
  exists h', subs. split; [exact Hc|].
  intros sub Hin.
  exact (Hkeep sub "neuron" "name" (SStr "core_server") Hin
           ltac:(vm_compute; discriminate) ltac:(vm_compute; discriminate)
           ltac:(vm_compute; reflexivity)).
Defined.

(** X6: an entry that cannot be read at a position both lists reach (a port
    that is no integer, or a key that is not exactly [cold:hot], for
    instance with two [:]) makes the fan-out raise [ValueError]; then
    [neuron(config).run()] ends with it and starts no process. *)
Theorem unreadable_entry_raises_value_error
    (h : heap) (config : loc) (keys_text ports_text : string)
    (i : nat) (key port_text : string) (rounds : nat) (w : Supervisor.world) :
  well_formed h config ->
  read h config "wallet" "shared_keys" = Ok (SStr keys_text) ->
  read h config "axon" "shared_ports" = Ok (SStr ports_text) ->
  split "," keys_text !! i = Some key ->
  split "," ports_text !! i = Some port_text ->
  py_int port_text = None \/ (forall coldkey hotkey, ~ key_entry key coldkey hotkey) ->
  create_shared_subconfigs h config = Raise ValueError /\
  Neuron.launch rounds w h config = ([], Raise ValueError).
Proof.
  intros Hwf Hkeys Hports Hkey Hport Hbad.
  destruct (read_inv _ _ _ _ _ Hkeys) as [lw Hw].
  destruct (read_inv _ _ _ _ _ Hports) as [la Ha].
  assert (Hfail : create_shared_subconfigs h config = Raise ValueError).
  { unfold create_shared_subconfigs. rewrite Hkeys. simpl. rewrite Hports.
    now apply (fanout_loop_bad_entry h config lw la Hwf Hw Ha i _ _ h [] key port_text). }
  split; [assumption|].
  unfold Neuron.launch, Neuron.init. now rewrite Hfail.
Qed.

(** The second port is a name, not a number. *)
Lemma unreadable_entry_raises_value_error_witness :
  Neuron.launch 3 (Supervisor.world_of []) (example_heap "A:a,B:b" "9000,http") 1%positive
    = ([], Raise ValueError).
Proof.
  exact (proj2 (unreadable_entry_raises_value_error
           (example_heap "A:a,B:b" "9000,http") 1%positive "A:a,B:b" "9000,http"
           1 "B:b" "http" 3 (Supervisor.world_of [])
           (example_heap_well_formed _ _) eq_refl eq_refl eq_refl eq_refl
           (or_introl eq_refl))).
Defined.

(** X7: with exactly one readable pair of key and port, the fan-out makes one
    configuration carrying that identity, and [neuron.run] then takes its
    in-process branch, which serves [self.config]: the shared configuration
    itself, a different object that still looks as it did before the
    fan-out.  The identity of the key is not what is served. *)
Theorem single_identity_is_served_from_the_shared_config
    (h : heap) (config : loc) (keys_text ports_text key port_text : string)
    (rounds : nat) (w : Supervisor.world) :
  well_formed h config ->
  read h config "wallet" "shared_keys" = Ok (SStr keys_text) ->
  read h config "axon" "shared_ports" = Ok (SStr ports_text) ->
  zip (split "," keys_text) (split "," ports_text) = [(key, port_text)] ->
  readable (key, port_text) ->
  exists h' sub self,
    Neuron.init h config = Ok (h', self) /\
    Neuron.shared_subconfigs self = [sub] /\
    carries h' sub (key, port_text) /\
    Neuron.run rounds w self = Neuron.ServedInProcess /\
    served_config self = Some config /\
    sub <> config /\
    view h' config = view h config.
Proof.
  intros Hwf Hkeys Hports Hzip Hentry.
  destruct (create_on_readable_pairs h config keys_text ports_text Hwf Hkeys Hports)
    as (h' & subs & Hcreate & [Hsub Hown Hcar _ _] & _).
  { rewrite Hzip. now constructor. }
  rewrite Hzip in Hcar.
  apply Forall2_cons_inv_r in Hcar as (sub & rest & Hc & Hrest & ->).
  apply Forall2_nil_inv_r in Hrest as ->.
  exists h', sub, (Neuron.Build_neuron config [sub]).
  split; [unfold Neuron.init; now rewrite Hcreate|].
  split; [reflexivity|]. split; [assumption|]. split; [reflexivity|].
  split; [reflexivity|]. split; [|now apply view_weaken].
  apply Forall_cons in Hown as [[_ Hfoot] _]. intros ->.
  destruct Hwf as (secs & Hconfig & _).
  assert (Hnone : h !! config = None).
  { apply Hfoot. unfold footprint. destruct (h' !! config) as [[|]|]; left. }
  congruence.
Qed.

(** One key and one port. *)
Lemma single_identity_is_served_from_the_shared_config_witness :
  exists h' sub self,
    Neuron.init (example_heap "A:a" "9000") 1%positive = Ok (h', self) /\
    Neuron.shared_subconfigs self = [sub] /\
    served_config self = Some 1%positive /\
    sub <> 1%positive.
Proof.
  destruct (single_identity_is_served_from_the_shared_config
              (example_heap "A:a" "9000") 1%positive "A:a" "9000" "A:a" "9000"
              0 (Supervisor.world_of [])
              (example_heap_well_formed _ _) eq_refl eq_refl eq_refl
              (conj (ex_intro _ "A" (ex_intro _ "a" eq_refl))
                    (ex_intro _ 9000%Z eq_refl)))
    as (h' & sub & self & Hinit & Hsubs & _ & _ & Hserved & Hne & _).
  exists h', sub, self. auto.
Defined.

End FanoutExtra.

(** ** gpt2-wiki: what a call of [train] counts *)

Module Gpt2WikiExtra.
Import Gpt2Wiki Gpt2WikiMain Gpt2WikiFacts.

Lemma errors_logged_app evs evs' :
  errors_logged (evs ++ evs') = errors_logged evs + errors_logged evs'.
Proof. unfold errors_logged. now rewrite List.filter_app, length_app. Qed.

Lemma errors_logged_emit ev st :
  is_error ev = false ->
  errors_logged (log (emit_event ev st)) = errors_logged (log st).
Proof.
  intros Hev. simpl. rewrite errors_logged_app. unfold errors_logged at 2.
  simpl. rewrite Hev. simpl. lia.
Qed.

Lemma metagraph_sync_accounts e st st1 r :
  metagraph_sync e st = (st1, r) ->
  iterations st1 = iterations st /\ log st1 = log st ++ [Sync].
Proof.
  unfold metagraph_sync. destruct (sync e (syncs st)); intros [= <- _]; auto.
Qed.

Lemma errors_logged_sync evs : errors_logged (evs ++ [Sync]) = errors_logged evs.
Proof. rewrite errors_logged_app. unfold errors_logged at 2. simpl. lia. Qed.

Lemma errors_logged_error evs err :
  errors_logged (evs ++ [LoggedError err]) = S (errors_logged evs).
Proof. rewrite errors_logged_app. unfold errors_logged at 2. simpl. lia. Qed.

(** What [publish_pull] leaves of the counters and of the output. *)
Lemma publish_pull_accounts e st l st1 l1 r :
  publish_pull e st l = (st1, l1, r) ->
  iterations st1 = iterations st /\
  errors_logged (log st1) = errors_logged (log st) /\
  local_step l1 = local_step l /\ global_step l1 = global_step l /\
  last_output l1 = last_output l.
Proof.
  unfold publish_pull.
  destruct (emit e (iterations st)).
  { intros [= <- <- _]. rewrite errors_logged_emit; auto. }
  destruct (metagraph_sync e _) as [st2 r2] eqn:Hsync.
  apply metagraph_sync_accounts in Hsync as [Hi Hl]. simpl in Hi, Hl.
  assert (Herr : errors_logged (log st2) = errors_logged (log st)).
  { now rewrite Hl, errors_logged_sync, errors_logged_app, Nat.add_comm. }
  destruct r2; [intros [= <- <- _]; auto|].
  destruct (row0 _); [|intros [= <- <- _]; auto].
  destruct (col0 _); [|intros [= <- <- _]; auto].
  intros [= <- <- _]. rewrite errors_logged_emit; auto.
Qed.

Local Ltac raised_early :=
  intros [= <- <- <-]; rewrite ?errors_logged_emit by reflexivity; simpl;
  split; [reflexivity|]; split; [reflexivity|];
  split; [try (intros _; discriminate); auto|];
  right; repeat split; discriminate.

(** The body of the [try]: it logs no error itself, and it moves the two
    step counters together, by one.  It has moved them when it does not
    raise, and then the output is set; when it raises it has not, unless
    the exception is the one of its last call, line 143. *)
Lemma try_body_accounts e sync_interval st l st1 l1 r :
  try_body e sync_interval st l = (st1, l1, r) ->
  iterations st1 = iterations st /\
  errors_logged (log st1) = errors_logged (log st) /\
  (last_output l <> None -> last_output l1 <> None) /\
  ((local_step l1 = S (local_step l) /\ global_step l1 = S (global_step l) /\
    last_output l1 <> None /\ r = empty_cache e (iterations st)) \/
   (local_step l1 = local_step l /\ global_step l1 = global_step l /\ r <> None)).
Proof.
  unfold try_body.
  destruct (forward e (iterations st)) as [err|out]; [raised_early|].
  destruct (backward e (iterations st)) as [err|]; [raised_early|].
  destruct (update_row _ _) as [row|err]; [|raised_early].
  destruct (Z.eqb sync_interval 0); [raised_early|].
  destruct (Z.eqb _ 0).
  - destruct (publish_pull e _ _) as [[st2 l3] raised] eqn:Hpp.
    apply publish_pull_accounts in Hpp as (Hi & He & Hl & Hg & Ho).
    rewrite errors_logged_emit in He by reflexivity. simpl in Hi, Hl, Hg, Ho.
    destruct raised; intros [= <- <- <-]; simpl; rewrite ?Hl, ?Hg, ?Ho;
      (split; [assumption|]); (split; [assumption|]);
      (split; [intros _; discriminate|]).
    + right. repeat split; discriminate.
    + left. repeat split; discriminate.
  - intros [= <- <- <-]. rewrite errors_logged_emit by reflexivity. simpl.
    split; [reflexivity|]. split; [reflexivity|].
    split; [intros _; discriminate|]. left. repeat split; discriminate.
Qed.

(** One iteration of the [while]: a step is counted, or an error is logged,
    or both when the last call of the body raises. *)
Lemma iteration_accounts e sync_interval st l st' l' :
  iteration e sync_interval st l = (st', l') ->
  iterations st' = S (iterations st) /\
  (last_output l <> None -> last_output l' <> None) /\
  ((local_step l' = S (local_step l) /\ global_step l' = S (global_step l) /\
    last_output l' <> None /\
    errors_logged (log st') = errors_logged (log st)) \/
   (local_step l' = local_step l /\ global_step l' = global_step l /\
    errors_logged (log st') = S (errors_logged (log st))) \/
   (local_step l' = S (local_step l) /\ global_step l' = S (global_step l) /\
    last_output l' <> None /\
    errors_logged (log st') = S (errors_logged (log st)) /\
    empty_cache e (iterations st) <> None)).
Proof.
  unfold iteration.
  destruct (try_body e sync_interval st l) as [[st1 l1] r] eqn:Hbody.
  apply try_body_accounts in Hbody as (Hi & He & Ho & Hr).
  intros [= <- <-]. split; [destruct r; simpl; lia|]. split; [assumption|].
  destruct Hr as [(Hl & Hg & Hout & Hr)|(Hl & Hg & Hr)].
  - destruct r as [err|]; simpl.
    + right. right. rewrite errors_logged_error, He.
      repeat split; auto. rewrite <- Hr. discriminate.
    + left. auto.
  - destruct r as [err|]; [|congruence]. simpl.
    right. left. rewrite errors_logged_error, He. auto.
Qed.

Lemma train_loop_accounts e sync_interval : forall fuel st l,
  local_step l <= local_epochs ->
  (0 < local_step l -> last_output l <> None) ->
  match train_loop fuel e sync_interval st l with
  | TrainReturned out g' st' =>
      g' + local_step l = global_step l + local_epochs /\
      out <> None /\
      iterations st + local_epochs <= iterations st' + local_step l /\
      iterations st' + local_step l + errors_logged (log st)
        <= iterations st + local_epochs + errors_logged (log st') /\
      ((forall k, iterations st <= k -> empty_cache e k = None) ->
       iterations st' + local_step l + errors_logged (log st)
         = iterations st + local_epochs + errors_logged (log st'))
  | Training l' st' =>
      local_step l' < local_epochs /\
      global_step l' + local_step l = global_step l + local_step l' /\
      iterations st' = iterations st + fuel /\
      local_step l' <= fuel + local_step l /\
      fuel + local_step l + errors_logged (log st)
        <= local_step l' + errors_logged (log st') /\
      ((forall k, iterations st <= k -> empty_cache e k = None) ->
       fuel + local_step l + errors_logged (log st)
         = local_step l' + errors_logged (log st'))
  | TrainRaised _ _ => False
  end.
Proof.
  induction fuel as [|fuel IH]; intros st l Hle Hout; simpl;
    destruct (Nat.ltb_spec (local_step l) local_epochs) as [Hlt|Hge];
    try (split; [lia|]; split; [apply Hout; unfold local_epochs in *; lia|];
         split; [lia|]; split; [lia|]; intros _; lia).
  - repeat split; try lia.
  - destruct (iteration e sync_interval st l) as [st1 l1] eqn:Hit.
    apply iteration_accounts in Hit as (Hi & Ho & Hstep).
    assert (Hle1 : local_step l1 <= local_epochs)
      by (destruct Hstep as [?|[?|?]]; lia).
    assert (Hout1 : 0 < local_step l1 -> last_output l1 <> None).
    { destruct Hstep as [(_ & _ & Hsome & _)|[(Hl & _)|(_ & _ & Hsome & _)]];
        [auto| |auto].
      intros H0. apply Ho, Hout. lia. }
    specialize (IH st1 l1 Hle1 Hout1).
    destruct (train_loop fuel e sync_interval st1 l1) as [out g' st'| |l' st'];
      [|exact IH|].
    + destruct IH as (H1 & H2 & H3 & H4 & H5).
      split; [destruct Hstep as [?|[?|?]]; lia|]. split; [assumption|].
      split; [destruct Hstep as [?|[?|?]]; lia|].
      split; [destruct Hstep as [?|[?|?]]; lia|].
      intros Hquiet.
      assert (H5' : iterations st' + local_step l1 + errors_logged (log st1)
                    = iterations st1 + local_epochs + errors_logged (log st'))
        by (apply H5; intros k Hk; apply Hquiet; lia).
      destruct Hstep as [?|[?|(_ & _ & _ & _ & Hlate)]]; try lia.
      exfalso. apply Hlate, Hquiet. lia.
    + destruct IH as (H1 & H2 & H3 & H4 & H5 & H6).
      split; [assumption|].
      split; [destruct Hstep as [?|[?|?]]; lia|].
      split; [lia|].
      split; [destruct Hstep as [?|[?|?]]; lia|].
      split; [destruct Hstep as [?|[?|?]]; lia|].
      intros Hquiet.
      assert (H6' : fuel + local_step l1 + errors_logged (log st1)
                    = local_step l' + errors_logged (log st'))
        by (apply H6; intros k Hk; apply Hquiet; lia).
      destruct Hstep as [?|[?|(_ & _ & _ & _ & Hlate)]]; try lia.
      exfalso. apply Hlate, Hquiet. lia.
Qed.

(** The accounts of a call of [train]. *)
Lemma train_accounts
    (e : env) (sync_interval : Z) (fuel g : nat) (st : state) :
  match train fuel e sync_interval g st with
  | TrainReturned out g' st' =>
      g' = g + local_epochs /\ out <> None /\
      iterations st + local_epochs <= iterations st' /\
      iterations st' + errors_logged (log st)
        <= iterations st + local_epochs + errors_logged (log st') /\
      ((forall k, iterations st <= k -> empty_cache e k = None) ->
       iterations st' + errors_logged (log st)
         = iterations st + local_epochs + errors_logged (log st'))
  | Training l st' =>
      local_step l < local_epochs /\ global_step l = g + local_step l /\
      iterations st' = iterations st + fuel /\
      local_step l <= fuel /\
      fuel + errors_logged (log st) <= local_step l + errors_logged (log st') /\
      ((forall k, iterations st <= k -> empty_cache e k = None) ->
       fuel + errors_logged (log st) = local_step l + errors_logged (log st'))
  | TrainRaised _ st' =>
      iterations st' = iterations st /\
      log st' = log st ++ match model_train e (iterations st) with
                        | Some _ => []
                        | None => [Sync]
                        end
  end.
Proof.
  unfold train.
  destruct (model_train e (iterations st)); [now rewrite app_nil_r|].
  destruct (metagraph_sync e st) as [st1 r] eqn:Hsync.
  apply metagraph_sync_accounts in Hsync as [Hi Hl].
  destruct r; [auto|]. destruct (row0 _) as [row|]; [|auto].
  destruct (data_parallel e (iterations st1)); [auto|].
  pose proof (train_loop_accounts e sync_interval fuel st1 (Locals row 0 g None)) as H.
  simpl in H. rewrite Hl, errors_logged_sync, Hi in H.
  destruct (train_loop _ _ _ _ _) as [out g' st'| |l' st'].
  - destruct H as (H1 & H2 & H3 & H4 & H5); [unfold local_epochs; lia|lia|].
    repeat split; auto; try lia. intros Hq. specialize (H5 Hq). lia.
  - destruct H; [unfold local_epochs; lia|lia].
  - destruct H as (H1 & H2 & H3 & H4 & H5 & H6); [unfold local_epochs; lia|lia|].
    repeat split; auto; try lia. intros Hq. specialize (H6 Hq). lia.
Qed.

(** X8: a call of [train] returns only after ten steps have been counted,
    whatever fails in between: the global step it returns is the one it was
    given plus ten, the output it returns is not [None], and the loop ran
    at least ten iterations and at most ten plus one for every error it
    logged; exactly that many when no [torch.cuda.empty_cache()] fails,
    the one call whose exception is logged after its step was counted.
    Until then the two step counters move together, and an exception
    leaves [train] only from what precedes the loop, with no iteration
    run. *)
Theorem train_returns_after_ten_counted_steps
    (e : env) (sync_interval : Z) (fuel g : nat) (st : state) :
  match train fuel e sync_interval g st with
  | TrainReturned out g' st' =>
      g' = g + local_epochs /\ out <> None /\
      iterations st + local_epochs <= iterations st' /\
      iterations st' + errors_logged (log st)
        <= iterations st + local_epochs + errors_logged (log st') /\
      ((forall k, iterations st <= k -> empty_cache e k = None) ->
       iterations st' + errors_logged (log st)
         = iterations st + local_epochs + errors_logged (log st'))
  | Training l st' =>
      local_step l < local_epochs /\ global_step l = g + local_step l /\
      iterations st' = iterations st + fuel /\
      local_step l <= fuel /\
      fuel + errors_logged (log st) <= local_step l + errors_logged (log st') /\
      ((forall k, iterations st <= k -> empty_cache e k = None) ->
       fuel + errors_logged (log st) = local_step l + errors_logged (log st'))
  | TrainRaised _ st' =>
      iterations st' = iterations st /\
      log st' = log st ++ match model_train e (iterations st) with
                        | Some _ => []
                        | None => [Sync]
                        end
  end.
Proof. apply train_accounts. Qed.

(** *** Steps that always raise *)

Section Stuck.
Variable e : env.
Variable sync_interval : Z.
Variable from : nat.
Hypothesis Hraises : forall st l,
  from <= iterations st ->
  exists st1 l1 err,
    try_body e sync_interval st l = (st1, l1, Some err) /\
    local_step l1 = local_step l /\ global_step l1 = global_step l.

Lemma train_loop_stuck : forall fuel st l,
  from <= iterations st ->
  local_step l < local_epochs ->
  exists l' st',
    train_loop fuel e sync_interval st l = Training l' st' /\
    local_step l' = local_step l /\ global_step l' = global_step l /\
    iterations st' = iterations st + fuel /\
    errors_logged (log st') = errors_logged (log st) + fuel.
Proof.
  induction fuel as [|fuel IH]; intros st l Hfrom Hlt; simpl;
    (destruct (Nat.ltb_spec (local_step l) local_epochs); [|lia]).
  - exists l, st. repeat split; auto.
  - destruct (Hraises st l Hfrom) as (st1 & l1 & err & Hbody & Hl & Hg).
    unfold iteration. rewrite Hbody.
    destruct (try_body_accounts _ _ _ _ _ _ _ Hbody) as (Hi & He & _).
    destruct (IH (State (graph (emit_event (LoggedError err) st1))
                        (S (iterations (emit_event (LoggedError err) st1)))
                        (syncs (emit_event (LoggedError err) st1))
                        (log (emit_event (LoggedError err) st1))) l1)
      as (l' & st' & Hloop & Hl' & Hg' & Hi' & He'); [simpl; lia|lia|].
    exists l', st'. split; [exact Hloop|]. simpl in Hi', He'.
    rewrite errors_logged_error in He'. repeat split; lia.
Qed.

Lemma train_stuck fuel g st :
  from <= iterations st ->
  match train fuel e sync_interval g st with
  | TrainReturned _ _ _ => False
  | TrainRaised _ st' =>
      log st' = log st ++ match model_train e (iterations st) with
                        | Some _ => []
                        | None => [Sync]
                        end
  | Training l st' =>
      local_step l = 0 /\ global_step l = g /\
      iterations st' = iterations st + fuel /\
      errors_logged (log st') = errors_logged (log st) + fuel
  end.
Proof.
  intros Hfrom. unfold train.
  destruct (model_train e (iterations st)); [now rewrite app_nil_r|].
  destruct (metagraph_sync e st) as [st1 r] eqn:Hsync.
  apply metagraph_sync_accounts in Hsync as [Hi Hl].
  destruct r; [auto|]. destruct (row0 _) as [row|]; [|auto].
  destruct (data_parallel e (iterations st1)); [auto|].
  destruct (train_loop_stuck fuel st1 (Locals row 0 g None))
    as (l' & st' & -> & H1 & H2 & H3 & H4);
    [lia|unfold local_epochs; simpl; lia|].
  simpl in H1, H2. rewrite Hl, errors_logged_sync in H4. repeat split; auto; lia.
Qed.

End Stuck.

(** With [sync_interval = 0] every step raises, at the latest in the
    remainder of line 130, before the counters move. *)
Lemma try_body_zero_interval e st l :
  exists st1 l1 err,
    try_body e 0 st l = (st1, l1, Some err) /\
    local_step l1 = local_step l /\ global_step l1 = global_step l.
Proof.
  unfold try_body.
  destruct (forward e (iterations st)); [eauto 10|].
  destruct (backward e (iterations st)); [eauto 10|].
  destruct (update_row _ _); simpl; eauto 10.
Qed.

(** X9: with [sync_interval = 0] a call of [train] never returns.  The
    remainder of line 130 raises [ZeroDivisionError] in every step that gets
    that far, the handler logs it, and the step is not counted: after any
    number of iterations [local_step] is still 0, [global_step] is what it
    was, and every iteration has logged an error.  If [train] raises, it
    does so before the loop: from [model.train()], before its [sync], or
    after it. *)
Theorem zero_sync_interval_never_finishes
    (e : env) (fuel g : nat) (st : state) :
  match train fuel e 0 g st with
  | TrainReturned _ _ _ => False
  | TrainRaised _ st' =>
      log st' = log st ++ match model_train e (iterations st) with
                        | Some _ => []
                        | None => [Sync]
                        end
  | Training l st' =>
      local_step l = 0 /\ global_step l = g /\
      iterations st' = iterations st + fuel /\
      errors_logged (log st') = errors_logged (log st) + fuel
  end.
Proof.
  apply (train_stuck e 0 0); [|lia].
  intros st0 l0 _. apply try_body_zero_interval.
Qed.

(** X10: when every batch fails from some iteration on (the dataset or the
    model call raises each time), [train] never returns: the handler logs
    each failure and the loop goes on without counting a step, so neither
    [local_step] nor [global_step] moves. *)
Theorem failing_batches_keep_train_looping
    (e : env) (sync_interval : Z) (fuel g : nat) (st : state) :
  (forall k, iterations st <= k -> exists err, forward e k = inl err) ->
  match train fuel e sync_interval g st with
  | TrainReturned _ _ _ => False
  | TrainRaised _ st' =>
      log st' = log st ++ match model_train e (iterations st) with
                        | Some _ => []
                        | None => [Sync]
                        end
  | Training l st' =>
      local_step l = 0 /\ global_step l = g /\
      iterations st' = iterations st + fuel /\
      errors_logged (log st') = errors_logged (log st) + fuel
  end.
Proof.
  intros Hfail. apply (train_stuck e sync_interval (iterations st)); [|lia].
  intros st0 l0 Hfrom. destruct (Hfail _ Hfrom) as [err Herr].
  exists st0, l0, err. unfold try_body. now rewrite Herr.
Qed.

(** An environment in which no batch ever arrives. *)
Definition broken_env : env :=
  Env (fun _ => inl RuntimeError) (fun _ => None) (fun _ => None)
      (fun _ => inr example_graph) (fun _ => None)
      (fun _ => None) (fun _ => None) (fun _ => None).

Lemma failing_batches_keep_train_looping_witness :
  match train 5 broken_env 100 0 example_state with
  | TrainReturned _ _ _ => False
  | TrainRaised _ st' => log st' = log example_state ++ [Sync]
  | Training l st' =>
      local_step l = 0 /\ global_step l = 0 /\
      iterations st' = iterations example_state + 5 /\
      errors_logged (log st') = errors_logged (log example_state) + 5
  end.
Proof.
  exact (failing_batches_keep_train_looping broken_env 100 5 0 example_state
           (fun k _ => ex_intro _ RuntimeError eq_refl)).
Defined.

(** *** The steps that publish *)

Lemma emit_steps_of_step_kinds sync_interval g ks current :
  emit_steps_of_kinds current (step_kinds sync_interval g ++ ks)
    = List.filter (publishes sync_interval) [S g] ++ emit_steps_of_kinds (S g) ks.
Proof.
  unfold step_kinds, publishes. simpl. replace (g + 1) with (S g) by lia.
  now destruct (Z.eqb _ 0).
Qed.

Lemma emit_steps_of_steps sync_interval ks : forall n g current,
  exists current',
    emit_steps_of_kinds current
      (flat_map (step_kinds sync_interval) (seq g n) ++ ks)
    = List.filter (publishes sync_interval) (seq (S g) n)
      ++ emit_steps_of_kinds current' ks.
Proof.
  induction n as [|n IH]; intros g current; [now exists current|].
  cbn [seq flat_map]. rewrite <- app_assoc, emit_steps_of_step_kinds.
  destruct (IH (S g) (S g)) as [current' ->].
  exists current'. rewrite app_assoc. f_equal.
  change (S g :: seq (S (S g)) n) with ([S g] ++ seq (S (S g)) n).
  now rewrite List.filter_app.
Qed.

Lemma emit_steps_of_main_kinds sync_interval : forall epochs g current,
  emit_steps_of_kinds current (main_kinds sync_interval g epochs)
    = List.filter (publishes sync_interval) (seq (S g) (epochs * local_epochs)).
Proof.
  induction epochs as [|epochs IH]; intros g current; [reflexivity|].
  cbn [main_kinds]. unfold train_kinds. cbn [app emit_steps_of_kinds].
  destruct (emit_steps_of_steps sync_interval
              (main_kinds sync_interval (g + local_epochs) epochs)
              local_epochs g current) as [current' ->].
  rewrite IH.
  replace (S epochs * local_epochs) with (local_epochs + epochs * local_epochs) by lia.
  rewrite List.seq_app, List.filter_app. reflexivity.
Qed.

(** X11: while no call fails, the loop publishes in exactly the steps whose
    number, counted from one over all calls of [train], is a multiple of
    [sync_interval]: over any number of rounds of [main], from any global
    step, the log shows an [emit] in those steps, once each and in order,
    and in no other. *)
Theorem emits_fall_on_multiples_of_the_interval
    (width : nat) (e : env) (sync_interval : Z) (st : state)
    (fuel epochs g : nat) :
  cooperative width e ->
  sync_interval <> 0%Z ->
  local_epochs <= fuel ->
  exists out st' events,
    main_loop epochs fuel e sync_interval g st
      = TrainReturned out (g + epochs * local_epochs) st' /\
    log st' = log st ++ events /\
    emit_steps g events
      = List.filter (publishes sync_interval) (seq (S g) (epochs * local_epochs)).
Proof.
  intros Hcoop Hinterval Hfuel.
  destruct (main_loop_cooperative width e sync_interval Hcoop Hinterval fuel epochs g st Hfuel)
    as (out & st' & evs & Hm & Hlog & Hk).
  exists out, st', evs. split; [exact Hm|]. split; [exact Hlog|].
  now rewrite emit_steps_kinds, Hk, emit_steps_of_main_kinds.
Qed.

(** Two rounds from global step 5 with [sync_interval = 4]. *)
Lemma emits_fall_on_multiples_of_the_interval_witness :
  exists out st' events,
    main_loop 2 10 example_env 4 5 example_state = TrainReturned out 25 st' /\
    log st' = events /\
    emit_steps 5 events = [8; 12; 16; 20; 24].
Proof.
  destruct (emits_fall_on_multiples_of_the_interval 2 example_env 4 example_state
              10 2 5 example_env_cooperative ltac:(discriminate) (le_n 10))
    as (out & st' & events & Hm & Hlog & Hsteps).
  exists out, st', events. split; [exact Hm|]. split; [exact Hlog | exact Hsteps].
Defined.

(** *** The best loss *)

Local Open Scope Q_scope.

Lemma improves_below train_loss b :
  improves train_loss (Some b) = true -> train_loss < b.
Proof.
  unfold improves. intros H. apply Qnot_le_lt. intros Hle.
  apply Qle_bool_iff in Hle. now rewrite Hle in H.
Qed.

(** What [main] keeps of the saves: [best_train_loss] is the loss of the last
    one, each is strictly below the one before it, and each carries the
    round it was made in and the global step after that round. *)
Record tracked (g0 epoch : nat) (p : progress) : Prop := {
  tracked_best : best_train_loss p = save_loss <$> last (saves p);
  tracked_order : forall i s1 s2,
    saves p !! i = Some s1 -> saves p !! S i = Some s2 ->
    save_loss s2 < save_loss s1 /\ (save_epoch s1 < save_epoch s2)%nat;
  tracked_steps : Forall (fun s =>
    (save_epoch s < epoch)%nat /\
    save_step s = (g0 + local_epochs * S (save_epoch s))%nat) (saves p);
}.

Lemma tracked_later g0 epoch epoch' p :
  (epoch <= epoch')%nat -> tracked g0 epoch p -> tracked g0 epoch' p.
Proof.
  intros Hle [Hb Ho Hs]. split; [assumption|assumption|].
  eapply Forall_impl; [exact Hs|]. simpl. intros s [H1 H2]. split; [lia|assumption].
Qed.

Lemma tracked_after_train g0 epoch out p :
  tracked g0 epoch p ->
  tracked g0 (S epoch)
    (after_train epoch (g0 + local_epochs * S epoch) out p).
Proof.
  intros Hp. pose proof (tracked_later g0 epoch (S epoch) p ltac:(lia) Hp) as Hp'.
  destruct out as [o|]; [|exact Hp']. simpl.
  destruct (improves _ _) eqn:Himp; [|exact Hp'].
  destruct Hp as [Hb Ho Hs]. split; simpl.
  - now rewrite last_snoc.
  - intros i s1 s2 H1 H2.
    destruct (decide (S i < length (saves p))%nat) as [Hlt|Hge].
    + rewrite lookup_app_l in H1 by lia. rewrite lookup_app_l in H2 by lia. eauto.
    + pose proof (lookup_lt_Some _ _ _ H2) as Hlen.
      rewrite length_app in Hlen. simpl in Hlen.
      assert (Hi : S i = length (saves p)) by lia.
      rewrite lookup_app_l in H1 by lia.
      rewrite lookup_app_r in H2 by lia.
      replace (S i - length (saves p))%nat with 0%nat in H2 by lia.
      injection H2 as <-. simpl.
      assert (Hlast : last (saves p) = Some s1).
      { rewrite last_lookup, <- Hi. exact H1. }
      rewrite Hlast in Hb. simpl in Hb. rewrite Hb in Himp.
      split; [now apply improves_below|].
      rewrite Forall_forall in Hs.
      apply (Hs s1). eapply list_elem_of_lookup_2. exact H1.
  - apply Forall_app. split.
    + eapply Forall_impl; [exact Hs|]. simpl. intros s [H1 H2]. split; [lia|assumption].
    + constructor; [|constructor]. simpl. split; [lia|reflexivity].
Qed.

Lemma main_tracked fuel e sync_interval g0 : forall rounds epoch p st,
  tracked g0 epoch p ->
  tracked g0 (epoch + rounds)
    (progress_of (main rounds fuel e sync_interval epoch
                    (g0 + local_epochs * epoch) p st)).
Proof.
  induction rounds as [|rounds IH]; intros epoch p st Hp; cbn [main].
  - apply (tracked_later g0 epoch); [lia|assumption].
  - pose proof (train_accounts e sync_interval fuel (g0 + local_epochs * epoch) st) as Ht.
    destruct (train fuel e sync_interval _ st) as [out g' st'|err st'|l st'];
      cbn [progress_of]; try (apply (tracked_later g0 epoch); [lia|assumption]).
    destruct Ht as (-> & _).
    replace (g0 + local_epochs * epoch + local_epochs)%nat
      with (g0 + local_epochs * S epoch)%nat by lia.
    replace (epoch + S rounds)%nat with (S epoch + rounds)%nat by lia.
    apply IH. now apply tracked_after_train.
Qed.

(** X12: across the rounds of [main], a model is saved only when the loss of
    the round is strictly below [best_train_loss], which is then set to it.
    So at any time [best_train_loss] is the loss of the last save
    ([math.inf] before the first), the losses of the saves strictly
    decrease (an equal loss does not save again), their rounds increase,
    and every save carries the global step reached at the end of its round:
    ten steps for each round so far. *)
Theorem saved_losses_strictly_decrease
    (rounds fuel : nat) (e : env) (sync_interval : Z) (g : nat) (st : state) :
  best_train_loss (progress_of (main rounds fuel e sync_interval 0 g no_progress st))
    = save_loss <$>
        last (saves (progress_of (main rounds fuel e sync_interval 0 g no_progress st))) /\
  (forall i s1 s2,
     saves (progress_of (main rounds fuel e sync_interval 0 g no_progress st)) !! i
       = Some s1 ->
     saves (progress_of (main rounds fuel e sync_interval 0 g no_progress st)) !! S i
       = Some s2 ->
     save_loss s2 < save_loss s1 /\ (save_epoch s1 < save_epoch s2)%nat) /\
  Forall (fun s =>
            (save_epoch s < rounds)%nat /\
            save_step s = (g + local_epochs * S (save_epoch s))%nat)
         (saves (progress_of (main rounds fuel e sync_interval 0 g no_progress st))).
Proof.
  destruct (main_tracked fuel e sync_interval g rounds 0 no_progress st) as [Hb Ho Hs].
  { split; simpl; [reflexivity| |constructor]. intros i s1 s2 H. inversion H. }
  replace (g + local_epochs * 0)%nat with g in * by lia.
  auto.
Qed.

End Gpt2WikiExtra.

(** ** core_server: the synapse flags *)

Module FlagsFacts.
Import Fanout Flags FanoutFacts.




Section Neuron_section.
Variable h : heap.
Variable config ln : loc.
Variable attrs0 : gmap string scalar.
Hypothesis Hsection : get_section h config "neuron" = Ok ln.
Hypothesis Hattrs : h !! ln = Some (Namespace attrs0).

Lemma neuron_section_apart : config <> ln.
Proof.
  intros ->. unfold get_section in Hsection. now rewrite Hattrs in Hsection.
Qed.

Lemma get_section_at attrs section :
  get_section (<[ln := Namespace attrs]> h) config section = get_section h config section.
Proof.
  unfold get_section. now rewrite lookup_insert_ne by (apply not_eq_sym, neuron_section_apart).
Qed.


Lemma read_at attrs name :
  read (<[ln := Namespace attrs]> h) config "neuron" name
    = match attrs !! name with
      | Some v => Ok v
      | None => Raise AttributeError
      end.
Proof.
  unfold read. rewrite get_section_at, Hsection. simpl. unfold get_attr.
  now rewrite lookup_insert_eq.
Qed.



Lemma override_missing attrs name :
  attrs !! name = None ->
  override (<[ln := Namespace attrs]> h) config name SNone = Raise AttributeError.
Proof. intros Hnone. unfold override. now rewrite read_at, Hnone. Qed.


End Neuron_section.

















End FlagsFacts.

(** ** core_server: from the keys to the processes *)

Module LaunchFacts.
Import Worker Supervisor Fanout Neuron Lifetimes FanoutMore.
Import SupervisorFacts FanoutFacts SupervisorMore FanoutExtra.




End LaunchFacts.
